(** * koishi-plugin-permissions: a shallow embedding of [src/index.ts]

    The plugin grants and revokes permission names on users, channels and
    permission groups.  It is glue over services of the koishi host: the
    database, the permission registry and the session.  The plugin's own
    functions ([parsePlatform], [listPermission], [modifyPermission],
    [deleteGroup], [#updateGroup] and the two command actions) are embedded
    line by line in a state monad; the host services they call are modelled
    in [Module Host] as operations on an explicit state that also records
    every call to the database and to the registry, in order.  The
    database is kept as tables of rows.  The permission registry is left
    open: the state records what the plugin asks of it, and what
    [ctx.permissions.list()] answers is an arbitrary function of those
    requests.  Calls to the host return: what can throw is the plugin's
    own code, where it calls a value that is not a function. *)

From Stdlib Require Import ZArith.
From stdpp Require Import base option list gmap strings.

Local Open Scope Z_scope.
Local Open Scope nat_scope.

(** ** JavaScript strings *)

Module JsString.

(** [s.startsWith(p)] *)
Definition startsWith (s p : string) : bool := String.prefix p s.

(** [s.indexOf(p)]: the first position of [p] in [s], or -1. *)
Definition indexOf (s p : string) : Z :=
  match String.index 0 p s with
  | Some n => Z.of_nat n
  | None => (-1)%Z
  end.

(** [s.lastIndexOf(p)]: the last position of [p] in [s], or -1. *)
Fixpoint lastIndexOf_from (s p : string) : option nat :=
  match s with
  | EmptyString => if String.prefix p s then Some 0 else None
  | String _ s' =>
      match lastIndexOf_from s' p with
      | Some n => Some (S n)
      | None => if String.prefix p s then Some 0 else None
      end
  end.

Definition lastIndexOf (s p : string) : Z :=
  match lastIndexOf_from s p with
  | Some n => Z.of_nat n
  | None => (-1)%Z
  end.

(** [s.slice(start, end)]; [None] for an omitted [end].  A negative index
    counts from the end of the string, and both are clamped to the
    string. *)
Definition slice (s : string) (start : Z) (end_ : option Z) : string :=
  let len := Z.of_nat (String.length s) in
  let clamp i := if (i <? 0)%Z then Z.max (len + i) 0 else Z.min i len in
  let from := clamp start in
  let to := match end_ with Some e => clamp e | None => len end in
  String.substring (Z.to_nat from) (Z.to_nat (Z.max (to - from) 0)) s.

(** [l.join(sep)] *)
Definition join (sep : string) (l : list string) : string :=
  String.concat sep l.

(** Truthiness of a value that is a string or [undefined]/[null]. *)
Definition truthy (o : option string) : bool :=
  match o with
  | Some s => negb (String.eqb s EmptyString)
  | None => false
  end.

(** [`${o}`] *)
Definition interp (o : option string) : string := default "undefined" o.

End JsString.

(** ** JavaScript [Set] of strings, in insertion order *)

Module JsSet.

Definition t := list string.

(** [s.add(x)] *)
Definition add (s : t) (x : string) : t :=
  if decide (x ∈ s) then s else s ++ [x].

(** [s.delete(x)] *)
Definition delete (s : t) (x : string) : t :=
  filter (λ y, y ≠ x) s.

(** [l.forEach(f.bind(s))] for [f] one of the two above. *)
Definition forEach (l : list string) (f : t → string → t) (s : t) : t :=
  foldl f s l.

(** [new Set(l)] *)
Definition new (l : list string) : t := forEach l add [].

(** [[...s]] *)
Definition spread (s : t) : list string := s.

End JsSet.

(** ** Data model *)

(** A row of the host's user table together with the platform binding it
    is reached by. *)
Record User := mkUser {
  user_id : nat;
  user_platform : string;
  user_pid : string;
  user_permissions : list string;
}.

Record Channel := mkChannel {
  channel_platform : string;
  channel_id : string;
  channel_permissions : list string;
}.

(** [interface PermissionGroup] *)
Record PermissionGroup := mkPermissionGroup {
  group_id : nat;
  group_name : string;
  group_permissions : list string;
}.

(** The calls the plugin makes to the host, as they are recorded. *)
Inductive Call :=
| GetUser (platform pid : string)
| CreateUser (platform pid : string)
| SetUser (id : nat) (permissions : list string)
| GetChannel (platform id : string)
| CreateChannel (platform id : string)
| SetChannel (platform id : string) (permissions : list string)
| GetGroup (name : string)
| CreateGroup (name : string)
| SetGroup (name : string) (permissions : list string)
| RemoveGroup (name : string)
| Define (name : string) (permissions : list string)
| Dispose (handle : nat).

(** The state an invocation runs on.
    - The three tables of the database.
    - [disposables]: the own properties of the plugin's [disposables]
      object, from group names to the disposers [define] returned.  A
      disposer is a function; it is named here by a number, and
      [next_handle] is the number of the disposer the next [define]
      returns.  What the object inherits from [Object.prototype] is in
      [Module JsObject].
    - [calls]: the calls made to the host so far.
    - [listing]: the registry's [list()], as a function of the [define]
      and disposer calls made so far.  Nothing is assumed of it. *)
Record State := mkState {
  table_user : list User;
  table_channel : list Channel;
  table_permissions : list PermissionGroup;
  next_handle : nat;
  disposables : gmap string nat;
  calls : list Call;
  listing : list Call → list string;
}.

Global Instance User_eq_dec : EqDecision User.
Proof. solve_decision. Defined.
Global Instance Channel_eq_dec : EqDecision Channel.
Proof. solve_decision. Defined.
Global Instance PermissionGroup_eq_dec : EqDecision PermissionGroup.
Proof. solve_decision. Defined.

(** ** The state monad of an awaited call chain *)

Definition M (A : Type) : Type := State → A * State.

Definition ret {A} (a : A) : M A := λ st, (a, st).

Definition bind {A B} (m : M A) (k : A → M B) : M B :=
  λ st, let '(a, st') := m st in k a st'.

Notation "x <- m ;; k" := (bind m (λ x, k))
  (at level 100, m at next level, right associativity).
Notation "m ;;; k" := (bind m (λ _, k))
  (at level 100, right associativity).

Definition result {A} (m : M A) (st : State) : A := fst (m st).
Definition after {A} (m : M A) (st : State) : State := snd (m st).

(** How a call of an [async] function of the plugin ends: it returns a
    value, or it throws (its promise is rejected). *)
Inductive Error := TypeError.

Inductive Completion (A : Type) :=
| returned (a : A)
| thrown (e : Error).

Arguments returned {A} a.
Arguments thrown {A} e.

(** [await m] followed by [k]: an error thrown by [m] ends the caller. *)
Definition bind_returned {A B} (m : M (Completion A))
    (k : A → M (Completion B)) : M (Completion B) :=
  λ st, match m st with
        | (returned a, st') => k a st'
        | (thrown e, st') => (thrown e, st')
        end.

Notation "x <~ m ;; k" := (bind_returned m (λ x, k))
  (at level 100, m at next level, right associativity).
Notation "m ;;~ k" := (bind_returned m (λ _, k))
  (at level 100, right associativity).

(** ** The host services *)

Module Host.

Definition record (c : Call) (st : State) : State :=
  mkState (table_user st) (table_channel st) (table_permissions st)
          (next_handle st) (disposables st) (calls st ++ [c]) (listing st).

Definition autoInc (ids : list nat) : nat := S (max_list ids).

(** [database.getUser(platform, pid)] *)
Definition getUser (platform pid : string) : M (option User) := λ st,
  (head (filter (λ u, user_platform u = platform ∧ user_pid u = pid)
                (table_user st)),
   record (GetUser platform pid) st).

(** [database.createUser(platform, pid, {})] *)
Definition createUser (platform pid : string) : M User := λ st,
  let user := mkUser (autoInc (user_id <$> table_user st)) platform pid [] in
  (user,
   record (CreateUser platform pid)
     (mkState (table_user st ++ [user]) (table_channel st)
              (table_permissions st) (next_handle st)
              (disposables st) (calls st) (listing st))).

(** [database.set('user', id, { permissions })] *)
Definition setUser (id : nat) (permissions : list string) : M unit := λ st,
  (tt,
   record (SetUser id permissions)
     (mkState
        ((λ u, if decide (user_id u = id)
               then mkUser (user_id u) (user_platform u) (user_pid u)
                           permissions
               else u) <$> table_user st)
        (table_channel st) (table_permissions st)
        (next_handle st) (disposables st) (calls st) (listing st))).

(** [database.getChannel(platform, id)] *)
Definition getChannel (platform id : string) : M (option Channel) := λ st,
  (head (filter (λ c, channel_platform c = platform ∧ channel_id c = id)
                (table_channel st)),
   record (GetChannel platform id) st).

(** [database.createChannel(platform, id, {})] *)
Definition createChannel (platform id : string) : M Channel := λ st,
  let channel := mkChannel platform id [] in
  (channel,
   record (CreateChannel platform id)
     (mkState (table_user st) (table_channel st ++ [channel])
              (table_permissions st) (next_handle st)
              (disposables st) (calls st) (listing st))).

(** [database.set('channel', { platform, id }, { permissions })] *)
Definition setChannel (platform id : string) (permissions : list string)
  : M unit := λ st,
  (tt,
   record (SetChannel platform id permissions)
     (mkState
        (table_user st)
        ((λ c, if decide (channel_platform c = platform ∧ channel_id c = id)
               then mkChannel (channel_platform c) (channel_id c) permissions
               else c) <$> table_channel st)
        (table_permissions st) (next_handle st)
        (disposables st) (calls st) (listing st))).

(** [database.get('permissions', { name })] *)
Definition get (name : string) : M (list PermissionGroup) := λ st,
  (filter (λ g, group_name g = name) (table_permissions st),
   record (GetGroup name) st).

(** [database.create('permissions', { name })]: the primary key is
    auto-incremented and the list field defaults to the empty list. *)
Definition create (name : string) : M PermissionGroup := λ st,
  let group :=
    mkPermissionGroup (autoInc (group_id <$> table_permissions st)) name [] in
  (group,
   record (CreateGroup name)
     (mkState (table_user st) (table_channel st)
              (table_permissions st ++ [group]) (next_handle st)
              (disposables st) (calls st) (listing st))).

(** [database.set('permissions', { name }, { permissions })] *)
Definition set (name : string) (permissions : list string) : M unit := λ st,
  (tt,
   record (SetGroup name permissions)
     (mkState
        (table_user st) (table_channel st)
        ((λ g, if decide (group_name g = name)
               then mkPermissionGroup (group_id g) (group_name g) permissions
               else g) <$> table_permissions st)
        (next_handle st) (disposables st) (calls st) (listing st))).

(** [database.remove('permissions', { name })] *)
Definition remove (name : string) : M unit := λ st,
  (tt,
   record (RemoveGroup name)
     (mkState (table_user st) (table_channel st)
              (filter (λ g, group_name g ≠ name) (table_permissions st))
              (next_handle st) (disposables st) (calls st) (listing st))).

(** [ctx.permissions.define(name, permissions)]: the request is recorded,
    and a new disposer is returned. *)
Definition define (name : string) (permissions : list string) : M nat :=
  λ st,
  (next_handle st,
   record (Define name permissions)
     (mkState (table_user st) (table_channel st) (table_permissions st)
              (S (next_handle st)) (disposables st) (calls st)
              (listing st))).

(** Calling a disposer: the call is recorded. *)
Definition dispose (handle : nat) : M unit := λ st,
  (tt, record (Dispose handle) st).

(** The calls that went to the registry. *)
Definition to_registry (cs : list Call) : list Call :=
  List.filter (λ c, match c with
                    | Define _ _ | Dispose _ => true
                    | _ => false
                    end) cs.

(** [ctx.permissions.list()] *)
Definition list (st : State) : list string :=
  listing st (to_registry (calls st)).

End Host.

(** ** A plain JavaScript object used as a dictionary *)

Module JsObject.

(** What a property lookup on a plain object finds under a name the object
    has no own property for: a member of [Object.prototype], told by what
    calling it without arguments on the object does. *)
Inductive Inherited :=
| prototype_object   (* [__proto__]: not a function *)
| accessor_definer   (* throws for want of a getter or setter argument *)
| toLocaleString     (* calls [this.toString()] *)
| other_method.      (* returns and changes nothing *)

Definition Object_prototype (name : string) : option Inherited :=
  if String.eqb name "__proto__" then Some prototype_object
  else if existsb (String.eqb name) ["__defineGetter__"; "__defineSetter__"]
  then Some accessor_definer
  else if String.eqb name "toLocaleString" then Some toLocaleString
  else if existsb (String.eqb name)
            ["constructor"; "hasOwnProperty"; "isPrototypeOf";
             "propertyIsEnumerable"; "toString"; "valueOf";
             "__lookupGetter__"; "__lookupSetter__"]
  then Some other_method
  else None.

End JsObject.

(** ** The plugin *)

(** [session.uid] and [session.cid] *)
Record Session := mkSession {
  uid : string;
  cid : string;
}.

(** The options of one invocation of [perm]; an option that was not given
    is [undefined]. *)
Record Options := mkOptions {
  opt_user : option string;
  opt_currentUser : bool;
  opt_channel : option string;
  opt_currentChannel : bool;
  opt_group : option string;
  opt_delete : bool;
}.

(** What an action returns: [session.text(path, params)] or
    [session.execute(content)]. *)
Inductive Response :=
| text (path : string) (params : option (string * option (list string)))
| execute (content : string).

Import JsString JsObject.

(** [function parsePlatform(target)] *)
Definition parsePlatform (target : string) : string * string :=
  let index := indexOf target ":" in
  let platform := slice target 0 (Some index) in
  let id := slice target (index + 1) None in
  (platform, id).

Module Permissions.

(** [async listPermission(target)] *)
Definition listPermission (target : string) : M (option (list string)) :=
  if negb (truthy (Some target)) then ret None
  else if startsWith target "@" then
    let '(platform, id) := parsePlatform (slice target 1 None) in
    user <- Host.getUser platform id ;;
    ret (user_permissions <$> user)
  else if startsWith target "#" then
    let '(platform, id) := parsePlatform (slice target 1 None) in
    channel <- Host.getChannel platform id ;;
    ret (channel_permissions <$> channel)
  else
    group <- (rows <- Host.get target ;; ret (head rows)) ;;
    ret (group_permissions <$> group).

(** The three statements every branch of [modifyPermission] runs on the
    list it fetched: [new Set(...)], [set.forEach(add)],
    [unset.forEach(delete)]. *)
Definition merge (stored set unset : list string) : JsSet.t :=
  let permissions := JsSet.new stored in
  let permissions := JsSet.forEach set JsSet.add permissions in
  let permissions := JsSet.forEach unset JsSet.delete permissions in
  permissions.

(** [this.disposables[name]?.()].  An own property is a disposer and is
    called.  Without one the lookup goes on to [Object.prototype]: under
    most names it finds nothing and the call is skipped; under
    [__proto__] it finds the prototype object, which is not a function,
    and under [__defineGetter__] and [__defineSetter__] a function that
    throws when called without arguments; [toLocaleString] calls
    [this.toString()], which is the disposer kept under [toString] when
    there is one; the other methods return. *)
Definition call_disposable (name : string) : M (Completion unit) := λ st,
  match disposables st !! name with
  | Some dispose => (Host.dispose dispose ;;; ret (returned tt)) st
  | None =>
      match Object_prototype name with
      | None => ret (returned tt) st
      | Some prototype_object | Some accessor_definer =>
          ret (thrown TypeError) st
      | Some toLocaleString =>
          match disposables st !! "toString" with
          | Some dispose => (Host.dispose dispose ;;; ret (returned tt)) st
          | None => ret (returned tt) st
          end
      | Some other_method => ret (returned tt) st
      end
  end.

(** [this.disposables[name] = dispose] *)
Definition set_disposable (name : string) (dispose : nat) : M unit :=
  λ st, (tt, mkState (table_user st) (table_channel st)
                     (table_permissions st) (next_handle st)
                     (<[name := dispose]> (disposables st)) (calls st)
                     (listing st)).

(** [delete this.disposables[name]] *)
Definition delete_disposable (name : string) : M unit :=
  λ st, (tt, mkState (table_user st) (table_channel st)
                     (table_permissions st) (next_handle st)
                     (delete name (disposables st)) (calls st)
                     (listing st)).

(** [async #updateGroup(name, permissions?)] *)
Definition updateGroup (name : string) (permissions : option (list string))
  : M (Completion unit) :=
  permissions <-
    match permissions with
    | Some p => ret (Some p)
    | None =>
        rows <- Host.get name ;;
        ret (group_permissions <$> head rows)
    end ;;
  match permissions with
  | None => ret (returned tt)
  | Some permissions =>
      call_disposable name ;;~
      dispose <- Host.define name permissions ;;
      set_disposable name dispose ;;;
      ret (returned tt)
  end.

(** [async modifyPermission(target, set, unset)] *)
Definition modifyPermission (target : string) (set unset : list string)
  : M (Completion bool) :=
  if negb (truthy (Some target)) then ret (returned false)
  else if startsWith target "@" then
    let '(platform, id) := parsePlatform (slice target 1 None) in
    found <- Host.getUser platform id ;;
    user <- match found with
            | Some user => ret user
            | None => Host.createUser platform id
            end ;;
    let permissions := merge (user_permissions user) set unset in
    Host.setUser (user_id user) (JsSet.spread permissions) ;;;
    ret (returned true)
  else if startsWith target "#" then
    let '(platform, id) := parsePlatform (slice target 1 None) in
    found <- Host.getChannel platform id ;;
    channel <- match found with
               | Some channel => ret channel
               | None => Host.createChannel platform id
               end ;;
    let permissions := merge (channel_permissions channel) set unset in
    Host.setChannel (channel_platform channel) (channel_id channel)
                    (JsSet.spread permissions) ;;;
    ret (returned true)
  else
    rows <- Host.get target ;;
    group <- match head rows with
             | Some group => ret group
             | None => Host.create target
             end ;;
    let permissions := merge (group_permissions group) set unset in
    Host.set target (JsSet.spread permissions) ;;;
    updateGroup target (Some (JsSet.spread permissions)) ;;~
    ret (returned true).

(** [async deleteGroup(name)] *)
Definition deleteGroup (name : string) : M (Completion unit) :=
  Host.remove name ;;;
  call_disposable name ;;~
  delete_disposable name ;;;
  ret (returned tt).

(** The target expression of the [perm] action. *)
Definition target_of (session : Session) (options : Options)
  : option string :=
  if truthy (opt_user options) then Some ("@" +:+ interp (opt_user options))
  else if opt_currentUser options then Some ("#" +:+ uid session)
  else if truthy (opt_channel options)
  then Some ("#" +:+ interp (opt_channel options))
  else if opt_currentChannel options then Some ("#" +:+ cid session)
  else if truthy (opt_group options)
  then Some ("group." +:+ interp (opt_group options))
  else None.

(** [perms.filter(x => !x.startsWith('~'))] *)
Definition set_of (perms : list string) : list string :=
  List.filter (λ x, negb (startsWith x "~")) perms.

(** [perms.filter(x => x.startsWith('~')).map(x => x.slice(1))] *)
Definition unset_of (perms : list string) : list string :=
  (λ x, slice x 1 None) <$> List.filter (λ x, startsWith x "~") perms.

(** [set.some(x => !this.ctx.permissions.list().includes(x))] *)
Definition some_unknown (set : list string) (st : State) : bool :=
  existsb (λ x, negb (bool_decide (x ∈ Host.list st))) set.

(** The action of [ctx.command('perm <...perms:string>')] *)
Definition perm (session : Session) (options : Options) (perms : list string)
  : M (Completion Response) :=
  if opt_delete options && truthy (opt_group options)
     && negb (bool_decide (length perms ≠ 0))
  then
    deleteGroup ("group." +:+ interp (opt_group options)) ;;~
    ret (returned (text ".deleted" None))
  else
    let target := target_of session options in
    if negb (truthy target) then ret (returned (execute "perm -h"))
    else
      let target := interp target in
      if bool_decide (length perms ≠ 0) then
        let set := set_of perms in
        let unset := unset_of perms in
        λ st,
          if some_unknown set st
          then ret (returned (text ".unknown-permission" None)) st
          else
            (ok <~ modifyPermission target set unset ;;
             if ok then ret (returned (text ".success" None))
             else ret (returned (text ".failure" None))) st
      else
        permissions <- listPermission target ;;
        ret (returned (text ".permissions" (Some (target, permissions)))).

(** The action of [ctx.command('perm.list')] *)
Definition perm_list : M string :=
  λ st, (join (String (Ascii.ascii_of_nat 10) EmptyString) (Host.list st), st).

End Permissions.

(** ** The variant of the plugin that knows the sandbox platform
    ([src/unnamed/part_001], second file) *)

Module Sandbox.

(** [function parsePlatform(target)]: a target of the sandbox platform is
    split at its last colon. *)
Definition parsePlatform (target : string) : string * string :=
  let index := if startsWith target "sandbox:"
               then lastIndexOf target ":" else indexOf target ":" in
  let platform := slice target 0 (Some index) in
  let id := slice target (index + 1) None in
  (platform, id).

End Sandbox.

(** ** Vocabulary of the statements *)

Section Vocabulary.

Import Permissions.

(** The call that fetches the backing record of a target, by sigil. *)
Definition fetch_of (target : string) : Call :=
  if startsWith target "@" then
    let '(platform, id) := parsePlatform (slice target 1 None) in
    GetUser platform id
  else if startsWith target "#" then
    let '(platform, id) := parsePlatform (slice target 1 None) in
    GetChannel platform id
  else GetGroup target.

(** The call that creates the backing record of a target, by sigil. *)
Definition create_of (target : string) : Call :=
  if startsWith target "@" then
    let '(platform, id) := parsePlatform (slice target 1 None) in
    CreateUser platform id
  else if startsWith target "#" then
    let '(platform, id) := parsePlatform (slice target 1 None) in
    CreateChannel platform id
  else CreateGroup target.

(** The permission list a call writes to the database, if it writes one. *)
Definition written (c : Call) : option (list string) :=
  match c with
  | SetUser _ l | SetChannel _ _ l | SetGroup _ l => Some l
  | _ => None
  end.

(** A target has a backing record: a user or channel row under the
    platform and id the target names, or a group row under its name. *)
Definition has_record (target : string) (st : State) : Prop :=
  if startsWith target "@" then
    let '(platform, id) := parsePlatform (slice target 1 None) in
    ∃ u, u ∈ table_user st ∧ user_platform u = platform ∧ user_pid u = id
  else if startsWith target "#" then
    let '(platform, id) := parsePlatform (slice target 1 None) in
    ∃ c, c ∈ table_channel st ∧
         channel_platform c = platform ∧ channel_id c = id
  else ∃ g, g ∈ table_permissions st ∧ group_name g = target.

(** The state of a freshly loaded plugin on an empty database.  Its
    registry is the plainest of those the statements range over: it
    answers [list()] with the names [registered]. *)
Definition initial (registered : list string) : State :=
  mkState [] [] [] 0 ∅ [] (λ _, registered).

(** The guard of the branch of [perm] that deletes a group. *)
Definition deletes (options : Options) (perms : list string) : bool :=
  opt_delete options && truthy (opt_group options)
  && negb (bool_decide (length perms ≠ 0)).

(** A fresh plugin whose registry knows the names [a] and [b]. *)
Definition registry : State := initial ["a"; "b"].

(** The state after [perm -g g a] on it. *)
Definition with_group : State :=
  after (modifyPermission "group.g" ["a"] []) registry.

Definition newline : Ascii.ascii := Ascii.ascii_of_nat 10.

(** The lines of a text. *)
Fixpoint lines (s : string) : list string :=
  match s with
  | EmptyString => [EmptyString]
  | String c s' =>
      if decide (c = newline) then EmptyString :: lines s'
      else match lines s' with
           | l :: ls => String c l :: ls
           | [] => [String c EmptyString]
           end
  end.

Fixpoint one_line (s : string) : Prop :=
  match s with
  | EmptyString => True
  | String c s' => c ≠ newline ∧ one_line s'
  end.

Definition colon : Ascii.ascii := Ascii.ascii_of_nat 58.

(** The character [c] does not occur in [s]. *)
Fixpoint lacks (c : Ascii.ascii) (s : string) : Prop :=
  match s with
  | EmptyString => True
  | String b s' => b ≠ c ∧ lacks c s'
  end.

(** Two states hold the same data: they differ at most in the calls
    recorded. *)
Definition same_data (st st' : State) : Prop :=
  table_user st' = table_user st
  ∧ table_channel st' = table_channel st
  ∧ table_permissions st' = table_permissions st
  ∧ next_handle st' = next_handle st
  ∧ disposables st' = disposables st
  ∧ listing st' = listing st.

(** The first record of a group, as [listPermission] and
    [modifyPermission] fetch it. *)
Definition group_of (name : string) (st : State) : option PermissionGroup :=
  head (filter (λ g, group_name g = name) (table_permissions st)).

(** [this.disposables[name]?.()] throws: the object has no own property
    [name], and what it inherits under that name does not stand being
    called. *)
Definition call_throws (name : string) (st : State) : Prop :=
  disposables st !! name = None
  ∧ name ∈ ["__proto__"; "__defineGetter__"; "__defineSetter__"].

(** The disposers [this.disposables[name]?.()] calls. *)
Definition disposers_called (name : string) (st : State) : list Call :=
  match disposables st !! name with
  | Some h => [Dispose h]
  | None =>
      if decide (name = "toLocaleString")
      then match disposables st !! "toString" with
           | Some h => [Dispose h]
           | None => []
           end
      else []
  end.

(** The list the registry was last given for [name]. *)
Definition last_defined (name : string) (cs : list Call)
  : option (list string) :=
  foldl (λ found c,
           match c with
           | Define n l => if decide (n = name) then Some l else found
           | _ => found
           end) None cs.

(** Every name the plugin holds a disposer for has a record, and the list
    the registry was last given for the name is the list of the record. *)
Definition in_step (st : State) : Prop :=
  ∀ name h,
    disposables st !! name = Some h →
    ∃ g, group_of name st = Some g
         ∧ last_defined name (calls st) = Some (group_permissions g).

End Vocabulary.

(** * Properties *)

(** ** The JavaScript [Set] operations *)

Section JsSet_facts.

Implicit Types (s l : list string) (x y : string).

Lemma elem_of_add s x y : y ∈ JsSet.add s x ↔ y ∈ s ∨ y = x.
Proof.
  unfold JsSet.add. case_decide as Hin.
  - split; [tauto|]. intros [?| ->]; done.
  - by rewrite elem_of_app, list_elem_of_singleton.
Qed.

Lemma NoDup_add s x : NoDup s → NoDup (JsSet.add s x).
Proof.
  intros Hs. unfold JsSet.add. case_decide as Hin; [done|].
  apply NoDup_app. split_and!; [done| |apply NoDup_singleton].
  intros z Hz Hz'. apply list_elem_of_singleton in Hz'. by subst.
Qed.

Lemma elem_of_delete s x y : y ∈ JsSet.delete s x ↔ y ∈ s ∧ y ≠ x.
Proof. unfold JsSet.delete. rewrite list_elem_of_filter. tauto. Qed.

Lemma NoDup_delete s x : NoDup s → NoDup (JsSet.delete s x).
Proof. apply NoDup_filter. Qed.

Lemma elem_of_forEach_add l s y :
  y ∈ JsSet.forEach l JsSet.add s ↔ y ∈ s ∨ y ∈ l.
Proof.
  unfold JsSet.forEach. revert s.
  induction l as [|x l IH]; intros s; simpl.
  - rewrite elem_of_nil. tauto.
  - rewrite IH, elem_of_add, elem_of_cons. tauto.
Qed.

Lemma NoDup_forEach_add l s :
  NoDup s → NoDup (JsSet.forEach l JsSet.add s).
Proof.
  unfold JsSet.forEach. revert s.
  induction l as [|x l IH]; intros s Hs; simpl; [done|].
  apply IH, NoDup_add, Hs.
Qed.

Lemma elem_of_forEach_delete l s y :
  y ∈ JsSet.forEach l JsSet.delete s ↔ y ∈ s ∧ y ∉ l.
Proof.
  unfold JsSet.forEach. revert s.
  induction l as [|x l IH]; intros s; simpl.
  - rewrite elem_of_nil. tauto.
  - rewrite IH, elem_of_delete, not_elem_of_cons. tauto.
Qed.

Lemma NoDup_forEach_delete l s :
  NoDup s → NoDup (JsSet.forEach l JsSet.delete s).
Proof.
  unfold JsSet.forEach. revert s.
  induction l as [|x l IH]; intros s Hs; simpl; [done|].
  apply IH, NoDup_delete, Hs.
Qed.

Lemma elem_of_new l y : y ∈ JsSet.new l ↔ y ∈ l.
Proof.
  unfold JsSet.new. rewrite elem_of_forEach_add, elem_of_nil. tauto.
Qed.

Lemma NoDup_new l : NoDup (JsSet.new l).
Proof. apply NoDup_forEach_add, NoDup_nil_2. Qed.

Lemma elem_of_merge stored set unset x :
  x ∈ Permissions.merge stored set unset ↔
  (x ∈ stored ∨ x ∈ set) ∧ x ∉ unset.
Proof.
  unfold Permissions.merge.
  by rewrite elem_of_forEach_delete, elem_of_forEach_add, elem_of_new.
Qed.

Lemma NoDup_merge stored set unset :
  NoDup (Permissions.merge stored set unset).
Proof.
  unfold Permissions.merge.
  apply NoDup_forEach_delete, NoDup_forEach_add, NoDup_new.
Qed.

End JsSet_facts.

(** ** Reading a table back after an update *)

Section Tables.

Context {A : Type} (P : A → Prop) `{!∀ x, Decision (P x)}.

Lemma filter_fmap_stable (f : A → A) (rows : list A) :
  (∀ x, P (f x) ↔ P x) →
  filter P (f <$> rows) = f <$> filter P rows.
Proof.
  intros Hf. induction rows as [|r rows IH]; [done|].
  rewrite fmap_cons. destruct (decide (P r)) as [Hr|Hr].
  - rewrite !filter_cons_True by (done || by apply Hf).
    by rewrite fmap_cons, IH.
  - rewrite !filter_cons_False by (done || by rewrite Hf). done.
Qed.

Lemma head_fmap_list {B} (f : A → B) (rows : list A) :
  head (f <$> rows) = f <$> head rows.
Proof. by destruct rows. Qed.

Lemma head_filter_snoc (rows : list A) (r : A) :
  head (filter P rows) = None → P r →
  head (filter P (rows ++ [r])) = Some r.
Proof.
  intros Hnone Hr. apply head_None in Hnone.
  rewrite filter_app, Hnone, filter_cons_True by done. done.
Qed.

End Tables.

Lemma truthy_Some target :
  JsString.truthy (Some target) = true ↔ target ≠ EmptyString.
Proof.
  simpl. destruct (String.eqb_spec target EmptyString); simpl; split; congruence.
Qed.

Section Tables_head.

Context {A : Type} (P : A → Prop) `{!∀ x, Decision (P x)}.

Lemma head_filter_fmap_stable (f : A → A) (rows : list A) :
  (∀ x, P (f x) ↔ P x) →
  head (filter P (f <$> rows)) = f <$> head (filter P rows).
Proof. intros Hf. by rewrite filter_fmap_stable, head_fmap_list. Qed.

Lemma head_filter_is_Some (rows : list A) :
  is_Some (head (filter P rows)) ↔ ∃ r, r ∈ rows ∧ P r.
Proof.
  split.
  - intros [r Hr]. exists r.
    apply head_Some_elem_of, list_elem_of_filter in Hr. tauto.
  - intros (r & Hin & Hr).
    destruct (filter P rows) as [|r' rows'] eqn:Hf; [|by eexists].
    by destruct (filter_nil_not_elem_of P rows r).
Qed.

Lemma filter_filter_out (rows : list A) :
  filter P (filter (λ x, ¬ P x) rows) = [].
Proof.
  induction rows as [|r rows IH]; [done|].
  rewrite (filter_cons (λ x, ¬ P x)).
  destruct (decide (¬ P r)); [rewrite filter_cons_False by done|]; done.
Qed.

End Tables_head.

Lemma filter_fmap_other {A} (P Q : A → Prop)
    `{!∀ x, Decision (P x), !∀ x, Decision (Q x)} (f : A → A)
    (rows : list A) :
  (∀ x, P (f x) ↔ P x) → (∀ x, P x → ¬ Q x) →
  filter P ((λ x, if decide (Q x) then f x else x) <$> rows) = filter P rows.
Proof.
  intros Hf Hdis. rewrite filter_fmap_stable by (intros x; by case_decide).
  induction rows as [|r rows IH]; [done|].
  rewrite filter_cons. case_decide as Hr; [|done].
  rewrite fmap_cons, IH. by rewrite decide_False by by apply Hdis.
Qed.

(** Unfolds one step of the monad and of the host operations. *)
Ltac run :=
  unfold result, after, bind, bind_returned, ret, Host.getUser,
    Host.createUser, Host.setUser, Host.getChannel, Host.createChannel,
    Host.setChannel, Host.get, Host.create, Host.set, Host.remove,
    Host.define, Host.dispose, Permissions.set_disposable,
    Permissions.delete_disposable, Host.record;
  cbn [fst snd table_user table_channel table_permissions
       next_handle disposables calls listing].

Ltac project :=
  cbn [fst snd table_user table_channel table_permissions
       next_handle disposables calls listing] in *.

Ltac stable := intros ?; by case_decide.

(** ** The optional call of a disposer *)

Section Optional_call.

Import Permissions.

Lemma Object_prototype_cases name :
  match Object_prototype name with
  | Some prototype_object => name = "__proto__"
  | Some accessor_definer =>
      name ∈ ["__defineGetter__"; "__defineSetter__"]
  | Some toLocaleString => name = "toLocaleString"
  | Some other_method | None =>
      (name ∉ ["__proto__"; "__defineGetter__"; "__defineSetter__"])
      ∧ name ≠ "toLocaleString"
  end.
Proof.
  unfold Object_prototype. cbn [existsb].
  repeat match goal with
         | |- context [String.eqb name ?s] =>
             destruct (String.eqb_spec name s) as [->|?]
         end; cbn [orb]; try done.
  all: try (rewrite !elem_of_cons, elem_of_nil; by auto).
  all: split; [|done]; rewrite !not_elem_of_cons; split_and!; try done;
    apply not_elem_of_nil.
Qed.

Lemma call_throws_not_held name st h :
  disposables st !! name = Some h → ¬ call_throws name st.
Proof. intros Hh [Hnone _]. congruence. Qed.

Lemma call_disposable_spec name st :
  let st' := after (call_disposable name) st in
  (call_throws name st →
   result (call_disposable name) st = thrown TypeError)
  ∧ (¬ call_throws name st →
     result (call_disposable name) st = returned tt)
  ∧ table_user st' = table_user st
  ∧ table_channel st' = table_channel st
  ∧ table_permissions st' = table_permissions st
  ∧ next_handle st' = next_handle st
  ∧ disposables st' = disposables st
  ∧ listing st' = listing st
  ∧ calls st' = calls st ++ disposers_called name st.
Proof.
  pose proof (Object_prototype_cases name) as Hcases.
  unfold call_disposable, call_throws, disposers_called, result, after.
  cbv beta.
  destruct (disposables st !! name) as [h|]; run.
  { split_and!; try done. by intros [? _]. }
  destruct (Object_prototype name) as [[]|]; run.
  - subst name. rewrite decide_False by done. rewrite app_nil_r.
    split_and!; try done. intros Hno. destruct Hno. split; [done|].
    rewrite !elem_of_cons. auto.
  - rewrite decide_False, app_nil_r.
    + split_and!; try done. intros Hno. destruct Hno. split; [done|].
      apply elem_of_cons. by right.
    + intros ->. revert Hcases. rewrite !elem_of_cons, elem_of_nil.
      by intros [|[|]].
  - subst name. rewrite decide_True by done.
    assert (¬ ("toLocaleString" : string)
              ∈ ["__proto__"; "__defineGetter__"; "__defineSetter__"])
      as Hno.
    { rewrite !not_elem_of_cons. split_and!; try done.
      apply not_elem_of_nil. }
    destruct (disposables st !! "toString"); run; rewrite ?app_nil_r;
      (split_and!; try done; by intros [_ ?]).
  - destruct Hcases as [Hn Ht]. rewrite decide_False, app_nil_r by done.
    split_and!; try done. by intros [_ ?].
  - destruct Hcases as [Hn Ht]. rewrite decide_False, app_nil_r by done.
    split_and!; try done. by intros [_ ?].
Qed.

Lemma disposers_called_throws name st :
  call_throws name st → disposers_called name st = [].
Proof.
  intros [Hnone Hname]. unfold disposers_called. rewrite Hnone.
  rewrite decide_False; [done|]. intros ->. revert Hname.
  rewrite !elem_of_cons, elem_of_nil. by intros [|[|[|]]].
Qed.

Lemma updateGroup_Some_spec name l st :
  let st' := after (updateGroup name (Some l)) st in
  table_user st' = table_user st
  ∧ table_channel st' = table_channel st
  ∧ table_permissions st' = table_permissions st
  ∧ listing st' = listing st
  ∧ (call_throws name st →
     result (updateGroup name (Some l)) st = thrown TypeError
     ∧ next_handle st' = next_handle st
     ∧ disposables st' = disposables st
     ∧ calls st' = calls st)
  ∧ (¬ call_throws name st →
     result (updateGroup name (Some l)) st = returned tt
     ∧ next_handle st' = S (next_handle st)
     ∧ disposables st' = <[name := next_handle st]> (disposables st)
     ∧ calls st' = calls st ++ disposers_called name st ++ [Define name l]).
Proof.
  destruct (call_disposable_spec name st)
    as (Hthrow & Hret & Hu & Hc & Hp & Hn & Hd & Hl & Hcalls).
  unfold updateGroup, result, after, bind, bind_returned, ret in *.
  destruct (call_disposable name st) as [[[]|e] st1]; cbn [fst snd] in *.
  - run. rewrite Hu, Hc, Hp, Hn, Hd, Hl, Hcalls.
    split_and!; try done.
    + intros Hthrows. by specialize (Hthrow Hthrows).
    + intros _. by rewrite <- (assoc_L (++)).
  - split_and!; try done.
    + intros Hthrows. specialize (Hthrow Hthrows).
      split_and!; try done.
      by rewrite Hcalls, disposers_called_throws, app_nil_r.
    + intros Hno. by specialize (Hret Hno).
Qed.

End Optional_call.

(** ** [modifyPermission] *)

Section ModifyPermission.

Import Permissions.

Variables (target : string) (set unset : list string) (st : State).

Hypothesis target_nonempty : target ≠ EmptyString.

Lemma call_throws_group : call_throws target st →
  startsWith target "@" = false ∧ startsWith target "#" = false.
Proof.
  intros [_ Hname]. revert Hname. rewrite !elem_of_cons, elem_of_nil.
  by intros [->|[->|[->|[]]]].
Qed.

Lemma listPermission_group st0 :
  startsWith target "@" = false →
  startsWith target "#" = false →
  result (listPermission target) st0
  = group_permissions
      <$> head (filter (λ g, group_name g = target) (table_permissions st0)).
Proof using target_nonempty.
  intros Hu Hc. apply truthy_Some in target_nonempty as Ht.
  unfold listPermission. by rewrite Ht, Hu, Hc.
Qed.

(** A group target up to the call of [#updateGroup]: the state [st1] the
    database is left in, and how the call ends. *)
Lemma modifyPermission_group :
  startsWith target "@" = false →
  startsWith target "#" = false →
  let prev := result (listPermission target) st in
  let l : list string := merge (default [] prev) set unset in
  ∃ st1,
    modifyPermission target set unset st =
      (match result (updateGroup target (Some l)) st1 with
       | returned _ => returned true
       | thrown e => thrown e
       end,
       after (updateGroup target (Some l)) st1)
    ∧ table_user st1 = table_user st
    ∧ table_channel st1 = table_channel st
    ∧ next_handle st1 = next_handle st
    ∧ disposables st1 = disposables st
    ∧ listing st1 = listing st
    ∧ calls st1 =
        calls st ++ GetGroup target
          :: match prev with Some _ => [] | None => [CreateGroup target] end
          ++ [SetGroup target l]
    ∧ group_permissions
        <$> head (filter (λ g, group_name g = target) (table_permissions st1))
      = Some l
    ∧ (∀ other, other ≠ target →
         filter (λ g, group_name g = other) (table_permissions st1)
         = filter (λ g, group_name g = other) (table_permissions st))
    ∧ filter (λ g, group_name g ≠ target) (table_permissions st1)
      = filter (λ g, group_name g ≠ target) (table_permissions st).
Proof using target_nonempty.
  intros Hu Hc. apply truthy_Some in target_nonempty as Ht.
  unfold modifyPermission, listPermission. rewrite Ht, Hu, Hc. cbn [negb].
  run.
  destruct (head (filter _ (table_permissions st))) as [g|] eqn:Hhead;
    cbn [fmap option_fmap option_map default from_option]; unfold id;
    unfold JsSet.spread, JsSet.t; run;
    match goal with |- context [updateGroup _ _ ?s] => exists s end;
    (split; [by destruct (updateGroup _ _ _) as [[] ?]|]);
    run; rewrite <- ?(assoc_L (++));
    (split_and!; [done|done|done|done|done|done| | |]).
  - rewrite head_filter_fmap_stable by stable. rewrite Hhead. cbn.
    apply head_Some_elem_of, list_elem_of_filter in Hhead as [Hg _].
    by rewrite decide_True.
  - intros other Hother.
    by rewrite (filter_fmap_other (λ g, group_name g = other)
                  (λ g, group_name g = target)) by (done || congruence).
  - by rewrite (filter_fmap_other (λ g, group_name g ≠ target)
                  (λ g, group_name g = target)) by done.
  - rewrite head_filter_fmap_stable by stable.
    rewrite head_filter_snoc by done. cbn. by rewrite decide_True.
  - intros other Hother.
    rewrite (filter_fmap_other (λ g, group_name g = other)
               (λ g, group_name g = target)) by (done || congruence).
    rewrite filter_app, filter_cons_False, filter_nil, app_nil_r; [done|].
    cbn. congruence.
  - rewrite (filter_fmap_other (λ g, group_name g ≠ target)
               (λ g, group_name g = target)) by done.
    rewrite filter_app, filter_cons_False, filter_nil, app_nil_r; [done|].
    cbn. tauto.
Qed.

(** What a group target is left with, for both ways the call can end. *)
Lemma modifyPermission_group_spec :
  startsWith target "@" = false →
  startsWith target "#" = false →
  let prev := result (listPermission target) st in
  let l : list string := merge (default [] prev) set unset in
  let st' := after (modifyPermission target set unset) st in
  let written :=
    calls st ++ GetGroup target
      :: match prev with Some _ => [] | None => [CreateGroup target] end
      ++ [SetGroup target l] in
  table_user st' = table_user st
  ∧ table_channel st' = table_channel st
  ∧ listing st' = listing st
  ∧ group_permissions
      <$> head (filter (λ g, group_name g = target) (table_permissions st'))
    = Some l
  ∧ (∀ other, other ≠ target →
       filter (λ g, group_name g = other) (table_permissions st')
       = filter (λ g, group_name g = other) (table_permissions st))
  ∧ filter (λ g, group_name g ≠ target) (table_permissions st')
    = filter (λ g, group_name g ≠ target) (table_permissions st)
  ∧ (call_throws target st →
     result (modifyPermission target set unset) st = thrown TypeError
     ∧ next_handle st' = next_handle st
     ∧ disposables st' = disposables st
     ∧ calls st' = written)
  ∧ (¬ call_throws target st →
     result (modifyPermission target set unset) st = returned true
     ∧ next_handle st' = S (next_handle st)
     ∧ disposables st' = <[target := next_handle st]> (disposables st)
     ∧ calls st' =
         written ++ disposers_called target st ++ [Define target l]).
Proof using target_nonempty.
  intros Hu Hc prev l st' written.
  destruct (modifyPermission_group Hu Hc)
    as (st1 & Heq & Hu1 & Hc1 & Hn1 & Hd1 & Hl1 & Hcalls1 & Hread & Hothers
        & Hrest).
  fold prev l in Heq, Hcalls1, Hread. fold written in Hcalls1.
  assert (st' = after (updateGroup target (Some l)) st1) as Hst'
    by (unfold st', after at 1; by rewrite Heq).
  assert (result (modifyPermission target set unset) st =
          match result (updateGroup target (Some l)) st1 with
          | returned _ => returned true
          | thrown e => thrown e
          end) as Hres by (unfold result at 1; by rewrite Heq).
  destruct (updateGroup_Some_spec target l st1)
    as (Hu2 & Hc2 & Hp2 & Hl2 & Hthrow & Hret).
  rewrite <- Hst' in Hu2, Hc2, Hp2, Hl2, Hthrow, Hret.
  assert (call_throws target st1 ↔ call_throws target st) as Hsame
    by (unfold call_throws; by rewrite Hd1).
  assert (disposers_called target st1 = disposers_called target st) as Hsame'
    by (unfold disposers_called; by rewrite Hd1).
  rewrite Hu2, Hc2, Hp2, Hl2, Hres.
  split_and!; try done; try congruence.
  - intros Hcase. destruct Hthrow as (-> & -> & -> & ->); [by apply Hsame|].
    split_and!; congruence.
  - intros Hcase. destruct Hret as (-> & -> & -> & ->); [by rewrite Hsame|].
    split_and!; congruence.
Qed.

Lemma modifyPermission_result :
  (call_throws target st →
   result (modifyPermission target set unset) st = thrown TypeError)
  ∧ (¬ call_throws target st →
     result (modifyPermission target set unset) st = returned true).
Proof using target_nonempty.
  destruct (startsWith target "@") eqn:Hu;
    [|destruct (startsWith target "#") eqn:Hc].
  - split; [intros [? ?]%call_throws_group; congruence|]. intros _.
    apply truthy_Some in target_nonempty as Ht.
    unfold modifyPermission. rewrite Ht, Hu. cbn [negb].
    destruct (parsePlatform _) as [p i]. run.
    by destruct (head (filter _ (table_user st))).
  - split; [intros [? ?]%call_throws_group; congruence|]. intros _.
    apply truthy_Some in target_nonempty as Ht.
    unfold modifyPermission. rewrite Ht, Hu, Hc. cbn [negb].
    destruct (parsePlatform _) as [p i]. run.
    by destruct (head (filter _ (table_channel st))).
  - destruct (modifyPermission_group Hu Hc)
      as (st1 & Heq & _ & _ & _ & Hd & _).
    unfold result at 1 2. rewrite Heq. cbn [fst].
    assert (call_throws target st1 ↔ call_throws target st) as Hsame
      by (unfold call_throws; by rewrite Hd).
    match goal with
    | |- context [result (updateGroup target (Some ?l)) st1] =>
        destruct (updateGroup_Some_spec target l st1)
          as (_ & _ & _ & _ & Hthrow & Hret)
    end.
    split; intros Hcase.
    + destruct Hthrow as (Hr & _); [by apply Hsame|]. by rewrite Hr.
    + destruct Hret as (Hr & _); [by rewrite Hsame|]. by rewrite Hr.
Qed.

Lemma listPermission_modifyPermission :
  result (listPermission target) (after (modifyPermission target set unset) st)
  = Some (merge (default [] (result (listPermission target) st)) set unset).
Proof using target_nonempty.
  destruct (startsWith target "@") eqn:Hu;
    [|destruct (startsWith target "#") eqn:Hc].
  - apply truthy_Some in target_nonempty as Ht.
    unfold listPermission, modifyPermission. rewrite Ht, Hu. cbn [negb].
    destruct (parsePlatform _) as [p i]. run.
    destruct (head (filter _ (table_user st))) as [u|] eqn:Hhead; run;
      rewrite head_filter_fmap_stable by stable.
    + rewrite Hhead. cbn. by rewrite decide_True.
    + rewrite head_filter_snoc by done. cbn. by rewrite decide_True.
  - apply truthy_Some in target_nonempty as Ht.
    unfold listPermission, modifyPermission. rewrite Ht, Hu, Hc. cbn [negb].
    destruct (parsePlatform _) as [p i]. run.
    destruct (head (filter _ (table_channel st))) as [c|] eqn:Hhead; run;
      rewrite head_filter_fmap_stable by stable.
    + rewrite Hhead. cbn.
      apply head_Some_elem_of, list_elem_of_filter in Hhead as [Hc' _].
      by rewrite decide_True.
    + rewrite head_filter_snoc by done. cbn. by rewrite decide_True.
  - destruct (modifyPermission_group Hu Hc)
      as (st1 & Heq & _ & _ & _ & _ & _ & _ & Hread & _).
    unfold after at 1. rewrite Heq. cbn [snd].
    destruct (updateGroup_Some_spec target
                (merge (default [] (result (listPermission target) st))
                       set unset) st1)
      as (_ & _ & Hp & _).
    by rewrite (listPermission_group _ Hu Hc), Hp.
Qed.

Lemma modifyPermission_calls :
  let prev := result (listPermission target) st in
  ∃ c rest,
    calls (after (modifyPermission target set unset) st) =
      calls st ++ fetch_of target
        :: match prev with Some _ => [] | None => [create_of target] end
        ++ c :: rest
    ∧ written c = Some (merge (default [] prev) set unset).
Proof using target_nonempty.
  destruct (startsWith target "@") eqn:Hu;
    [|destruct (startsWith target "#") eqn:Hc].
  - apply truthy_Some in target_nonempty as Ht.
    unfold listPermission, modifyPermission, fetch_of, create_of.
    rewrite Ht, Hu. cbn [negb].
    destruct (parsePlatform _) as [p i]. run.
    destruct (head (filter _ (table_user st))) as [u|]; run;
      eexists _, []; rewrite <- !(assoc_L (++)); split; done.
  - apply truthy_Some in target_nonempty as Ht.
    unfold listPermission, modifyPermission, fetch_of, create_of.
    rewrite Ht, Hu, Hc. cbn [negb].
    destruct (parsePlatform _) as [p i]. run.
    destruct (head (filter _ (table_channel st))) as [c|]; run;
      eexists _, []; rewrite <- !(assoc_L (++)); split; done.
  - intros prev. subst prev.
    destruct (modifyPermission_group Hu Hc)
      as (st1 & Heq & _ & _ & _ & _ & _ & Hcalls & _).
    unfold after. rewrite Heq. cbn [snd].
    destruct (updateGroup_Some_spec target
                (merge (default [] (result (listPermission target) st))
                       set unset) st1)
      as (_ & _ & _ & _ & Hthrow & Hret).
    unfold fetch_of, create_of. rewrite Hu, Hc.
    destruct (decide (call_throws target st1)) as [Hcase|Hcase].
    + destruct (Hthrow Hcase) as (_ & _ & _ & Hc1).
      rewrite Hc1, Hcalls. by eexists _, [].
    + destruct (Hret Hcase) as (_ & _ & _ & Hc1).
      rewrite Hc1, Hcalls. eexists _, _.
      rewrite <- !(assoc_L (++)). cbn [app]. rewrite <- !(assoc_L (++)).
      split; [reflexivity|done].
Qed.

End ModifyPermission.

(** ** [deleteGroup] *)

Section DeleteGroup.

Import Permissions.

Lemma deleteGroup_spec name st :
  let st' := after (deleteGroup name) st in
  table_user st' = table_user st
  ∧ table_channel st' = table_channel st
  ∧ table_permissions st' =
      filter (λ g, group_name g ≠ name) (table_permissions st)
  ∧ next_handle st' = next_handle st
  ∧ listing st' = listing st
  ∧ disposables st' = delete name (disposables st)
  ∧ calls st' = calls st ++ RemoveGroup name :: disposers_called name st
  ∧ (call_throws name st →
     result (deleteGroup name) st = thrown TypeError)
  ∧ (¬ call_throws name st →
     result (deleteGroup name) st = returned tt).
Proof.
  unfold deleteGroup. run.
  match goal with
  | |- context [call_disposable name ?s] =>
      destruct (call_disposable_spec name s)
        as (Hthrow & Hret & Hu & Hc & Hp & Hn & Hd & Hl & Hcalls);
      assert (disposers_called name s = disposers_called name st) as Hsame'
        by done
  end.
  unfold result, after in *.
  destruct (call_disposable name _) as [[[]|e] st1]; project; run.
  - rewrite Hu, Hc, Hp, Hn, Hd, Hl, Hcalls, Hsame', <- (assoc_L (++)).
    split_and!; try done.
  - assert (call_throws name st) as [Hnone Hname].
    { destruct (decide (call_throws name st)) as [|Hno]; [done|].
      by specialize (Hret Hno). }
    rewrite Hu, Hc, Hp, Hn, Hd, Hl, Hcalls, Hsame', <- (assoc_L (++)).
    rewrite (delete_id (disposables st)) by done.
    split_and!; done.
Qed.

End DeleteGroup.

(** ** The [perm] action, branch by branch *)

Section Perm.

Import Permissions.

Lemma target_of_nonempty session options target :
  target_of session options = Some target → target ≠ EmptyString.
Proof.
  unfold target_of. intros H.
  repeat match type of H with
         | (if ?b then _ else _) = _ => destruct b
         end; by simplify_eq.
Qed.

Lemma truthy_target_of session options :
  truthy (target_of session options) = true ↔
  is_Some (target_of session options).
Proof.
  split.
  - destruct (target_of session options); [by eexists|done].
  - intros [target Ht]. rewrite Ht.
    apply truthy_Some. by eapply target_of_nonempty.
Qed.

(** The keys [perm] makes carry a sigil or the group prefix: none of them
    is a member of [Object.prototype]. *)
Lemma group_key_regular s st : ¬ call_throws ("group." +:+ s) st.
Proof.
  intros [_ Hname]. revert Hname. rewrite !elem_of_cons, elem_of_nil.
  by intros [?|[?|[?|[]]]].
Qed.

Lemma target_of_regular session options target st :
  target_of session options = Some target → ¬ call_throws target st.
Proof.
  unfold target_of. intros H [_ Hname]. revert Hname.
  rewrite !elem_of_cons, elem_of_nil.
  repeat match type of H with
         | (if ?b then _ else _) = _ => destruct b
         end; simplify_eq; by intros [?|[?|[?|[]]]].
Qed.

Lemma perm_unfold session options perms st :
  perm session options perms st =
  if deletes options perms then
    (returned (text ".deleted" None),
     after (deleteGroup ("group." +:+ interp (opt_group options))) st)
  else
    match target_of session options with
    | None => (returned (execute "perm -h"), st)
    | Some target =>
        if bool_decide (perms ≠ []) then
          if some_unknown (set_of perms) st
          then (returned (text ".unknown-permission" None), st)
          else (returned (text ".success" None),
                after (modifyPermission target (set_of perms) (unset_of perms))
                      st)
        else
          (returned
             (text ".permissions"
                   (Some (target, result (listPermission target) st))),
           after (listPermission target) st)
    end.
Proof.
  unfold perm, deletes.
  destruct (opt_delete options && truthy (opt_group options)
            && negb (bool_decide (length perms ≠ 0))).
  { destruct (deleteGroup_spec ("group." +:+ interp (opt_group options)) st)
      as (_ & _ & _ & _ & _ & _ & _ & _ & Hret).
    specialize (Hret (group_key_regular _ _)).
    unfold result, after, bind_returned, ret in *.
    destruct (deleteGroup _ st) as [c st']. cbn [fst] in Hret.
    by subst c. }
  destruct (target_of session options) as [target|] eqn:Htarget;
    [|done].
  apply target_of_nonempty in Htarget as Hne.
  apply truthy_Some in Hne as Ht. rewrite Ht. cbn [negb].
  change (interp (Some target)) with target.
  destruct perms as [|x perms']; cbn [length bool_decide].
  - rewrite !bool_decide_false by auto.
    unfold result, after, bind, ret. by destruct (listPermission target st).
  - rewrite !bool_decide_true by done.
    destruct (some_unknown _ st); [done|].
    pose proof (proj2 (modifyPermission_result target (set_of (x :: perms'))
                         (unset_of (x :: perms')) st Hne)
                  (target_of_regular _ _ _ st Htarget)) as Hok.
    unfold result, after, bind_returned, ret in *.
    destruct (modifyPermission target _ _ st) as [ok st'].
    cbn [fst] in Hok. by subst ok.
Qed.

End Perm.

(** ** Fetch-or-create, merge, persist *)

Section Persisted.

Import Permissions.

(** C1: for every non-empty target key and every pair of lists,
    [modifyPermission] first fetches the backing record the sigil selects,
    creates it when the fetch found none, and then writes a permission
    list.  The list written is the one read back for the target afterwards;
    as a set it is (previous permissions ∪ set) ∖ unset, so a name that is
    in both lists is not in it. *)
Theorem modifyPermission_persists_merge target set unset st :
  target ≠ EmptyString →
  let prev := result (listPermission target) st in
  let st' := after (modifyPermission target set unset) st in
  ∃ c rest l,
    calls st' =
      calls st ++ fetch_of target
        :: match prev with Some _ => [] | None => [create_of target] end
        ++ c :: rest
    ∧ written c = Some l
    ∧ result (listPermission target) st' = Some l
    ∧ (∀ x, x ∈ l ↔ (x ∈ default [] prev ∨ x ∈ set) ∧ x ∉ unset)
    ∧ (∀ x, x ∈ set → x ∈ unset → x ∉ l).
Proof.
  intros Hne prev st'.
  destruct (modifyPermission_calls target set unset st Hne)
    as (c & rest & Hcalls & Hc).
  exists c, rest, (merge (default [] prev) set unset).
  split_and!; try done.
  - by apply listPermission_modifyPermission.
  - intros x. apply elem_of_merge.
  - intros x _ Hx. rewrite elem_of_merge. tauto.
Qed.

(** C4: after [modifyPermission] the list stored for the target has no
    duplicates, and permuting the stored list, the add list and the remove
    list gives a list with the same elements. *)
Theorem modifyPermission_NoDup_order_independent target set unset st :
  target ≠ EmptyString →
  ∃ l,
    result (listPermission target)
           (after (modifyPermission target set unset) st) = Some l
    ∧ NoDup l
    ∧ ∀ set2 unset2 st2,
        default [] (result (listPermission target) st)
          ≡ₚ default [] (result (listPermission target) st2) →
        set ≡ₚ set2 → unset ≡ₚ unset2 →
        ∃ l2,
          result (listPermission target)
                 (after (modifyPermission target set2 unset2) st2) = Some l2
          ∧ NoDup l2 ∧ (∀ x, x ∈ l ↔ x ∈ l2) ∧ l ≡ₚ l2.
Proof.
  intros Hne. eexists. split_and!.
  - by apply listPermission_modifyPermission.
  - apply NoDup_merge.
  - intros set2 unset2 st2 Hstored Hset Hunset. eexists.
    split; [by apply listPermission_modifyPermission|].
    assert (∀ x,
      x ∈ merge (default [] (result (listPermission target) st)) set unset ↔
      x ∈ merge (default [] (result (listPermission target) st2)) set2 unset2)
      as Hsame.
    { intros x. rewrite !elem_of_merge.
      by rewrite Hstored, Hset, Hunset. }
    split_and!; [apply NoDup_merge|done|].
    apply NoDup_Permutation; auto using NoDup_merge.
Qed.

(** C10, at the group target [__proto__]: the record is written, then the
    lookup of a disposer finds [Object.prototype] and the call of it
    throws, so [modifyPermission] does not return true. *)
Example modifyPermission_proto_throws :
  "__proto__" ≠ EmptyString
  ∧ result (modifyPermission "__proto__" ["a"] []) registry = thrown TypeError
  ∧ result (modifyPermission "__proto__" ["a"] []) registry ≠ returned true
  ∧ result (listPermission "__proto__")
           (after (modifyPermission "__proto__" ["a"] []) registry)
    = Some ["a"].
Proof. done. Qed.

End Persisted.

(** ** The [perm] command *)

Section Command.

Import Permissions.

Lemma deletes_nonempty options perms :
  perms ≠ [] → deletes options perms = false.
Proof.
  intros Hperms. unfold deletes. destruct perms; [done|].
  rewrite bool_decide_true by done. by rewrite andb_false_r.
Qed.

Lemma some_unknown_true set st x :
  x ∈ set → x ∉ Host.list st → some_unknown set st = true.
Proof.
  intros Hin Hnot. unfold some_unknown. apply existsb_exists.
  exists x. split; [by apply list_elem_of_In|].
  by rewrite bool_decide_false.
Qed.

Lemma elem_of_set_of perms x :
  x ∈ set_of perms ↔ x ∈ perms ∧ startsWith x "~" = false.
Proof.
  unfold set_of. rewrite !list_elem_of_In, filter_In.
  by rewrite negb_true_iff.
Qed.

(** C3: when [perm] has a target and one of the names given without [~] is
    not among the registry's known names, it answers with the
    unknown-permission message and the state is the one it started from:
    no call reached the database or the registry, no record was created,
    no stored list and no registration changed. *)
Theorem perm_unknown_permission session options perms st x :
  is_Some (target_of session options) →
  x ∈ perms → startsWith x "~" = false → x ∉ Host.list st →
  perm session options perms st =
  (returned (text ".unknown-permission" None), st).
Proof.
  intros [target Htarget] Hin Htilde Hunknown.
  assert (perms ≠ []) as Hperms by (intros ->; by apply elem_of_nil in Hin).
  rewrite perm_unfold, deletes_nonempty, Htarget by done.
  rewrite bool_decide_true by done.
  by rewrite (some_unknown_true _ st x) by (by rewrite ?elem_of_set_of).
Qed.

Lemma listPermission_None target st :
  ¬ has_record target st → result (listPermission target) st = None.
Proof.
  unfold has_record, listPermission.
  destruct (truthy (Some target)); [|done]. cbn [negb].
  destruct (startsWith target "@"); [|destruct (startsWith target "#")].
  - destruct (parsePlatform _) as [p i]. intros Hno. run.
    destruct (head _) as [u|] eqn:Hhead; [|done]. destruct Hno.
    apply (head_filter_is_Some
             (λ u, user_platform u = p ∧ user_pid u = i)). by eexists.
  - destruct (parsePlatform _) as [p i]. intros Hno. run.
    destruct (head _) as [c|] eqn:Hhead; [|done]. destruct Hno.
    apply (head_filter_is_Some
             (λ c, channel_platform c = p ∧ channel_id c = i)). by eexists.
  - intros Hno. run.
    destruct (head _) as [g|] eqn:Hhead; [|done]. destruct Hno.
    apply (head_filter_is_Some (λ g, group_name g = target)). by eexists.
Qed.

(** C9: with none of the user, current-user, channel, current-channel and
    group options given, [perm] resolves no target and hands over to its
    help, leaving the state as it was: no record is read or modified.  And
    [listPermission] returns [undefined] for a target without a backing
    record. *)
Theorem perm_no_target_help :
  (∀ session options perms st,
     truthy (opt_user options) = false →
     opt_currentUser options = false →
     truthy (opt_channel options) = false →
     opt_currentChannel options = false →
     truthy (opt_group options) = false →
     target_of session options = None
     ∧ perm session options perms st = (returned (execute "perm -h"), st))
  ∧ (∀ target st,
       ¬ has_record target st → result (listPermission target) st = None).
Proof.
  split; [|apply listPermission_None].
  intros session options perms st Hu HU Hc HC Hg.
  assert (target_of session options = None) as Htarget.
  { unfold target_of. by rewrite Hu, HU, Hc, HC, Hg. }
  split; [done|].
  rewrite perm_unfold, Htarget. unfold deletes.
  by rewrite Hg, andb_false_r.
Qed.

(** C7, as the code has it: no invocation of [perm] throws; every one
    returns a rendered message or hands over to the command's help; and
    when the delete option names a group and no permission names are
    given, the answer is the deleted message and no record of that group
    is left, whether or not there was one. *)
Theorem perm_renders_message session options perms st :
  (result (perm session options perms) st
     ∈ [returned (text ".deleted" None); returned (execute "perm -h");
        returned (text ".unknown-permission" None);
        returned (text ".success" None)]
   ∨ ∃ target permissions,
       result (perm session options perms) st =
       returned (text ".permissions" (Some (target, permissions))))
  ∧ (deletes options perms = true →
     result (perm session options perms) st = returned (text ".deleted" None)
     ∧ ¬ has_record ("group." +:+ interp (opt_group options))
           (after (perm session options perms) st)).
Proof.
  unfold result, after. rewrite perm_unfold. split.
  - repeat match goal with
           | |- context [if ?b then _ else _] => destruct b
           | |- context [match ?o with Some _ => _ | None => _ end] =>
               destruct o
           end; cbn [fst]; try (left; set_solver).
    right. by eexists _, _.
  - intros ->. split; [done|]. cbn [snd].
    unfold has_record. cbn [startsWith String.prefix].
    change (startsWith ("group." +:+ ?s) "@") with false.
    change (startsWith ("group." +:+ ?s) "#") with false. cbn iota.
    intros (g & Hg & Hname). revert Hg.
    destruct (deleteGroup_spec ("group." +:+ interp (opt_group options)) st)
      as (_ & _ & -> & _).
    rewrite list_elem_of_filter. tauto.
Qed.

(** C7 as stated fails: on a plugin that has no group [g], [perm -d -g g]
    answers with the deleted message, not with an unknown-group one. *)
Lemma perm_delete_absent_group_says_deleted :
  ¬ has_record "group.g" registry
  ∧ result (perm (mkSession "discord:1" "discord:lobby")
                 (mkOptions None false None false (Some "g") true) [])
           registry = returned (text ".deleted" None)
  ∧ result (perm (mkSession "discord:1" "discord:lobby")
                 (mkOptions None false None false (Some "g") true) [])
           registry ≠ returned (text ".unknown-group" None).
Proof.
  split_and!; [|done|done].
  intros (g & Hg & _). by apply elem_of_nil in Hg.
Qed.

(** The key the options resolve to, option by option in the order the
    action tests them. *)
Lemma target_of_cases session options :
  target_of session options =
  if truthy (opt_user options)
  then Some ("@" +:+ interp (opt_user options))
  else if opt_currentUser options || truthy (opt_channel options)
          || opt_currentChannel options
  then Some ("#" +:+ (if opt_currentUser options then uid session
                      else if truthy (opt_channel options)
                      then interp (opt_channel options)
                      else cid session))
  else if truthy (opt_group options)
  then Some ("group." +:+ interp (opt_group options))
  else None.
Proof.
  unfold target_of.
  by destruct (truthy (opt_user options)), (opt_currentUser options),
    (truthy (opt_channel options)), (opt_currentChannel options).
Qed.

(** C2, at the current-user option: [perm -U] resolves the user
    [discord:1] to a key with the channel sigil, and the key is looked up
    in the channel table. *)
Example target_of_currentUser_is_channel_key :
  let session := mkSession "discord:1" "discord:lobby" in
  let options := mkOptions None true None false None false in
  target_of session options = Some "#discord:1"
  ∧ fetch_of "#discord:1" = GetChannel "discord" "1".
Proof. done. Qed.

End Command.

(** ** Groups and their registrations *)

Section Groups.

Import Permissions.

(** C6: [deleteGroup] removes every record of the group from the
    permissions table and leaves the other tables alone; it calls the
    disposer held for the name and deletes the name from [disposables].
    The calls it makes are the removal and that of the disposer; without
    a disposer for the name there is no other call, but for the name
    [toLocaleString], under which the object inherits a method that calls
    what is held under [toString].  With a disposer for the name it
    returns; it throws only after the removal, for one of the three names
    of [call_throws] under which nothing is held. *)
Theorem deleteGroup_removes_and_unregisters name st :
  let st' := after (deleteGroup name) st in
  (∀ g, g ∈ table_permissions st' ↔
        g ∈ table_permissions st ∧ group_name g ≠ name)
  ∧ result (Host.get name) st' = []
  ∧ table_user st' = table_user st
  ∧ table_channel st' = table_channel st
  ∧ disposables st' = delete name (disposables st)
  ∧ disposables st' !! name = None
  ∧ next_handle st' = next_handle st
  ∧ (∀ h, disposables st !! name = Some h →
          result (deleteGroup name) st = returned tt)
  ∧ (result (deleteGroup name) st = thrown TypeError ↔ call_throws name st)
  ∧ calls st' =
      calls st ++ RemoveGroup name
        :: match disposables st !! name with
           | Some h => [Dispose h]
           | None =>
               if decide (name = "toLocaleString")
               then match disposables st !! "toString" with
                    | Some h => [Dispose h]
                    | None => []
                    end
               else []
           end.
Proof.
  intros st'.
  destruct (deleteGroup_spec name st)
    as (Hu & Hc & Hp & Hn & _ & Hd & Hcalls & Hthrow & Hret).
  fold st' in Hu, Hc, Hp, Hn, Hd, Hcalls.
  split_and!; try done.
  - intros g. rewrite Hp, list_elem_of_filter. tauto.
  - unfold result, Host.get. cbn [fst]. rewrite Hp.
    apply (filter_filter_out (λ g, group_name g = name)).
  - rewrite Hd. apply lookup_delete_eq.
  - intros h Hh. apply Hret. by eapply call_throws_not_held.
  - split; [|done]. intros Hr.
    destruct (decide (call_throws name st)) as [|Hno]; [done|].
    by rewrite (Hret Hno) in Hr.
Qed.

(** C5, at the group target [__proto__]: the merged list is written to
    the record, but the lookup of a disposer finds [Object.prototype], the
    call of it throws, and [define] is never reached: the registry is not
    asked anything and no disposer is kept. *)
Example modifyPermission_proto_not_registered :
  let st' := after (modifyPermission "__proto__" ["a"] []) registry in
  startsWith "__proto__" "@" = false
  ∧ startsWith "__proto__" "#" = false
  ∧ result (listPermission "__proto__") st' = Some ["a"]
  ∧ calls st' =
      [GetGroup "__proto__"; CreateGroup "__proto__";
       SetGroup "__proto__" ["a"]]
  ∧ Host.to_registry (calls st') = []
  ∧ disposables st' !! "__proto__" = None.
Proof. done. Qed.

End Groups.

(** ** The argument list and [perm.list] *)

Section Arguments.

Import Permissions.

Lemma substring_all s : String.substring 0 (String.length s) s = s.
Proof. induction s as [|c s IH]; [done|]. cbn. by rewrite IH. Qed.

Lemma slice_tail c s : slice (String c s) 1 None = s.
Proof.
  unfold slice. cbn [String.length Z.ltb Z.compare].
  replace (Z.to_nat (Z.min 1 (Z.of_nat (S (String.length s))))) with 1
    by lia.
  replace (Z.to_nat (Z.max (Z.of_nat (S (String.length s))
                            - Z.min 1 (Z.of_nat (S (String.length s)))) 0))
    with (String.length s) by lia.
  cbn. apply substring_all.
Qed.

Lemma startsWith_tilde x :
  startsWith x "~" = true → "~" +:+ slice x 1 None = x.
Proof.
  destruct x as [|c s]; [done|]. rewrite slice_tail.
  unfold startsWith. cbn [String.prefix].
  by destruct (Ascii.ascii_dec _ c) as [<-|].
Qed.

Lemma unset_of_tilde perms :
  (λ y, "~" +:+ y) <$> unset_of perms =
  List.filter (λ x, startsWith x "~") perms.
Proof.
  unfold unset_of. induction perms as [|x perms IH]; [done|].
  cbn [List.filter]. destruct (startsWith x "~") eqn:Hx; [|done].
  rewrite !fmap_cons, IH. by rewrite startsWith_tilde.
Qed.

Lemma partition_Permutation perms :
  perms ≡ₚ set_of perms ++ ((λ y, "~" +:+ y) <$> unset_of perms).
Proof.
  rewrite unset_of_tilde. unfold set_of.
  induction perms as [|x perms IH]; [done|].
  cbn [List.filter]. destruct (startsWith x "~"); cbn [negb].
  - by rewrite <- Permutation_middle, <- IH.
  - by rewrite <- app_comm_cons, <- IH.
Qed.

Lemma lines_one_line s : one_line s → lines s = [s].
Proof.
  induction s as [|c s IH]; [done|]. intros [Hc Hs]. cbn [lines].
  case_decide; [done|]. by rewrite IH.
Qed.

Lemma lines_app s rest :
  one_line s → lines (s +:+ String newline rest) = s :: lines rest.
Proof.
  induction s as [|c s IH].
  - intros _.
    change (lines (String newline rest) = EmptyString :: lines rest).
    cbn [lines]. by case_decide.
  - intros [Hc Hs].
    change (lines (String c (s +:+ String newline rest))
            = String c s :: lines rest).
    cbn [lines]. case_decide; [done|]. by rewrite IH.
Qed.

Lemma lines_join l :
  l ≠ [] → Forall one_line l →
  lines (join (String newline EmptyString) l) = l.
Proof.
  unfold join. induction l as [|x l IH]; [done|]. intros _ Hl.
  apply Forall_cons in Hl as [Hx Hl].
  destruct l as [|y l]; cbn [String.concat].
  - by apply lines_one_line.
  - change (String.append (String newline EmptyString) ?s)
      with (String newline s).
    rewrite lines_app by done. f_equal. by apply IH.
Qed.

(** C8: the names given to [perm] are split in two: the add list is the
    names that do not start with [~], in their order; the remove list is
    the names that start with [~], in their order and with that first
    character taken off; each given name goes to exactly one of the two.
    [perm] treats them so: with a target and every name to add known, it
    answers with the success message, and the list it leaves for the
    target holds the earlier names and the names given without [~], but
    none of those given with [~].  And [perm.list] returns the registry's
    names joined by line feeds and changes nothing: when no name holds a
    line feed, its lines are the names. *)
Theorem perm_arguments_and_perm_list :
  (∀ perms,
     (∀ x, x ∈ set_of perms ↔ x ∈ perms ∧ startsWith x "~" = false)
     ∧ (∀ y, y ∈ unset_of perms ↔ ("~" +:+ y) ∈ perms)
     ∧ (λ y, "~" +:+ y) <$> unset_of perms =
         List.filter (λ x, startsWith x "~") perms
     ∧ perms ≡ₚ set_of perms ++ ((λ y, "~" +:+ y) <$> unset_of perms))
  ∧ (∀ session options perms st target,
       target_of session options = Some target →
       perms ≠ [] →
       (∀ x, x ∈ perms → startsWith x "~" = false → x ∈ Host.list st) →
       result (perm session options perms) st
       = returned (text ".success" None)
       ∧ ∃ l,
           result (listPermission target)
                  (after (perm session options perms) st) = Some l
           ∧ ∀ x, x ∈ l ↔
                  (x ∈ default [] (result (listPermission target) st)
                   ∨ (x ∈ perms ∧ startsWith x "~" = false))
                  ∧ ("~" +:+ x) ∉ perms)
  ∧ (∀ st,
       perm_list st
       = (join (String newline EmptyString) (Host.list st), st)
       ∧ (Host.list st ≠ [] → Forall one_line (Host.list st) →
          lines (result perm_list st) = Host.list st)).
Proof.
  assert (∀ perms y, y ∈ unset_of perms ↔ ("~" +:+ y) ∈ perms) as Hunset.
  { intros perms y.
    rewrite <- (list_elem_of_fmap_inj (String.append "~")).
    change (String.append "~" <$> unset_of perms)
      with ((λ y, "~" +:+ y) <$> unset_of perms).
    rewrite unset_of_tilde, !list_elem_of_In, filter_In.
    split; [tauto|]. intros Hy. split; [done|].
    unfold startsWith.
    change ("~" +:+ y) with (String (Ascii.ascii_of_nat 126) y).
    cbn [String.prefix].
    destruct (Ascii.ascii_dec _ _); [by destruct y|done]. }
  split_and!.
  - intros perms. split_and!.
    + apply elem_of_set_of.
    + apply Hunset.
    + apply unset_of_tilde.
    + apply partition_Permutation.
  - intros session options perms st target Htarget Hperms Hknown.
    assert (some_unknown (set_of perms) st = false) as Hsome.
    { apply not_true_is_false. intros Hsome. unfold some_unknown in Hsome.
      apply existsb_exists in Hsome as (x & Hx & Hb).
      apply list_elem_of_In, elem_of_set_of in Hx as [Hx Htilde].
      by rewrite bool_decide_true in Hb by by apply Hknown. }
    unfold result at 1, after.
    rewrite perm_unfold, deletes_nonempty, Htarget by done.
    rewrite bool_decide_true, Hsome by done. cbn [fst snd].
    split; [done|]. eexists. split.
    + apply listPermission_modifyPermission.
      by apply (target_of_nonempty session options).
    + intros x. rewrite elem_of_merge, elem_of_set_of, Hunset. done.
  - intros st. split; [done|]. apply lines_join.
Qed.

End Arguments.

(** ** The statements at concrete invocations *)

Section Instances.

Import Permissions.

(** [perm -u discord:9 a b ~b] on a fresh plugin. *)
Lemma modifyPermission_persists_merge_witness :
  "@discord:9" ≠ EmptyString
  ∧ ∃ c rest l,
      calls (after (modifyPermission "@discord:9" ["a"; "b"] ["b"]) registry) =
        calls registry ++ fetch_of "@discord:9"
          :: match result (listPermission "@discord:9") registry with
             | Some _ => []
             | None => [create_of "@discord:9"]
             end
          ++ c :: rest
      ∧ written c = Some l
      ∧ result (listPermission "@discord:9")
               (after (modifyPermission "@discord:9" ["a"; "b"] ["b"]) registry)
        = Some l
      ∧ (∀ x, x ∈ l ↔
              (x ∈ default [] (result (listPermission "@discord:9") registry)
               ∨ x ∈ ["a"; "b"]) ∧ x ∉ ["b"])
      ∧ (∀ x, x ∈ ["a"; "b"] → x ∈ ["b"] → x ∉ l).
Proof.
  assert ("@discord:9" ≠ EmptyString) as Hne by done.
  exact (conj Hne (modifyPermission_persists_merge
                     "@discord:9" ["a"; "b"] ["b"] registry Hne)).
Defined.

(** [perm -u discord:9 a zz ~b] where [zz] is not registered. *)
Lemma perm_unknown_permission_witness :
  let session := mkSession "discord:1" "discord:lobby" in
  let options := mkOptions (Some "discord:9") false None false None false in
  is_Some (target_of session options)
  ∧ ("zz" ∈ ["a"; "zz"; "~b"])
  ∧ startsWith "zz" "~" = false
  ∧ ("zz" ∉ Host.list registry)
  ∧ perm session options ["a"; "zz"; "~b"] registry =
      (returned (text ".unknown-permission" None), registry).
Proof.
  intros session options.
  assert (is_Some (target_of session options)) as H1 by (by eexists).
  assert ("zz" ∈ ["a"; "zz"; "~b"]) as H2 by set_solver.
  assert (startsWith "zz" "~" = false) as H3 by reflexivity.
  assert ("zz" ∉ Host.list registry) as H4.
  { apply (bool_decide_unpack _). vm_compute. exact I. }
  exact (conj H1 (conj H2 (conj H3 (conj H4
           (perm_unknown_permission session options _ registry "zz"
              H1 H2 H3 H4))))).
Defined.

(** A channel target and a name given twice. *)
Lemma modifyPermission_NoDup_order_independent_witness :
  "#discord:lobby" ≠ EmptyString
  ∧ ∃ l,
      result (listPermission "#discord:lobby")
             (after (modifyPermission "#discord:lobby" ["a"; "b"; "a"] ["b"])
                    registry) = Some l
      ∧ NoDup l
      ∧ ∀ set2 unset2 st2,
          default [] (result (listPermission "#discord:lobby") registry)
            ≡ₚ default [] (result (listPermission "#discord:lobby") st2) →
          ["a"; "b"; "a"] ≡ₚ set2 → ["b"] ≡ₚ unset2 →
          ∃ l2,
            result (listPermission "#discord:lobby")
                   (after (modifyPermission "#discord:lobby" set2 unset2) st2)
            = Some l2
            ∧ NoDup l2 ∧ (∀ x, x ∈ l ↔ x ∈ l2) ∧ l ≡ₚ l2.
Proof.
  assert ("#discord:lobby" ≠ EmptyString) as Hne by done.
  exact (conj Hne (modifyPermission_NoDup_order_independent
                     "#discord:lobby" ["a"; "b"; "a"] ["b"] registry Hne)).
Defined.

(** Deleting the group [g], for which a disposer is held. *)
Lemma deleteGroup_removes_and_unregisters_witness :
  disposables with_group !! "group.g" = Some 0
  ∧ result (deleteGroup "group.g") with_group = returned tt
  ∧ calls (after (deleteGroup "group.g") with_group)
    = calls with_group ++ [RemoveGroup "group.g"; Dispose 0].
Proof.
  assert (disposables with_group !! "group.g" = Some 0) as H
    by (by vm_compute).
  destruct (deleteGroup_removes_and_unregisters "group.g" with_group)
    as (_ & _ & _ & _ & _ & _ & _ & Hret & _ & Hcalls).
  exact (conj H (conj (Hret 0 H) Hcalls)).
Defined.

(** [perm -d -g g] on a plugin that has the group. *)
Lemma perm_renders_message_witness :
  let session := mkSession "discord:1" "discord:lobby" in
  let options := mkOptions None false None false (Some "g") true in
  deletes options [] = true
  ∧ result (perm session options []) with_group
    = returned (text ".deleted" None)
  ∧ ¬ has_record ("group." +:+ interp (opt_group options))
        (after (perm session options []) with_group).
Proof.
  intros session options.
  assert (deletes options [] = true) as Hd by reflexivity.
  exact (conj Hd
           (proj2 (perm_renders_message session options [] with_group) Hd)).
Defined.

(** [perm -u discord:9 a ~b], and [perm.list] on a registry of two
    names. *)
Lemma perm_arguments_and_perm_list_witness :
  let session := mkSession "discord:1" "discord:lobby" in
  let options := mkOptions (Some "discord:9") false None false None false in
  (target_of session options = Some "@discord:9"
   ∧ ["a"; "~b"] ≠ []
   ∧ (∀ x, x ∈ ["a"; "~b"] → startsWith x "~" = false →
           x ∈ Host.list registry)
   ∧ result (perm session options ["a"; "~b"]) registry
     = returned (text ".success" None))
  ∧ (Host.list registry ≠ []
     ∧ Forall one_line (Host.list registry)
     ∧ lines (result perm_list registry) = Host.list registry).
Proof.
  intros session options.
  assert (target_of session options = Some "@discord:9") as H1
    by reflexivity.
  assert (["a"; "~b"] ≠ []) as H2 by done.
  assert (∀ x, x ∈ ["a"; "~b"] → startsWith x "~" = false →
            x ∈ Host.list registry) as H3.
  { intros x Hx Ht. repeat (apply elem_of_cons in Hx as [->|Hx]).
    - apply (bool_decide_unpack _). by vm_compute.
    - vm_compute in Ht. discriminate Ht.
    - by apply elem_of_nil in Hx. }
  assert (Host.list registry ≠ []) as Hne by (by vm_compute).
  assert (Forall one_line (Host.list registry)) as Hone.
  { vm_compute. repeat constructor; by vm_compute. }
  exact (conj
           (conj H1 (conj H2 (conj H3
              (proj1 (proj1 (proj2 perm_arguments_and_perm_list)
                        session options ["a"; "~b"] registry "@discord:9"
                        H1 H2 H3)))))
           (conj Hne (conj Hone
              (proj2 (proj2 (proj2 perm_arguments_and_perm_list) registry)
                 Hne Hone)))).
Defined.

(** [perm -d a] without a target option, and a group that has no record. *)
Lemma perm_no_target_help_witness :
  let session := mkSession "discord:1" "discord:lobby" in
  let options := mkOptions None false None false None true in
  (truthy (opt_user options) = false
   ∧ opt_currentUser options = false
   ∧ truthy (opt_channel options) = false
   ∧ opt_currentChannel options = false
   ∧ truthy (opt_group options) = false
   ∧ target_of session options = None
   ∧ perm session options ["a"] with_group
     = (returned (execute "perm -h"), with_group))
  ∧ (¬ has_record "group.h" with_group
     ∧ result (listPermission "group.h") with_group = None).
Proof.
  intros session options.
  assert (¬ has_record "group.h" with_group) as Hno.
  { intros (g & Hg & Hname). vm_compute in Hg.
    apply list_elem_of_singleton in Hg. by subst g. }
  exact (conj
           (conj eq_refl (conj eq_refl (conj eq_refl (conj eq_refl
              (conj eq_refl
                 (proj1 perm_no_target_help session options ["a"] with_group
                    eq_refl eq_refl eq_refl eq_refl eq_refl))))))
           (conj Hno (proj2 perm_no_target_help "group.h" with_group Hno))).
Defined.

End Instances.

(** * Further properties of the code *)

(** ** [parsePlatform] *)

Section ParsePlatform.

Implicit Types (s p rest target platform id : string).

Lemma append_cons c s rest : String c s +:+ rest = String c (s +:+ rest).
Proof. reflexivity. Qed.

Lemma length_append s rest :
  String.length (s +:+ rest) = String.length s + String.length rest.
Proof.
  induction s as [|c s IH]; [done|].
  rewrite append_cons. cbn [String.length]. by rewrite IH.
Qed.

Lemma substring_append_l s rest :
  String.substring 0 (String.length s) (s +:+ rest) = s.
Proof.
  induction s as [|c s IH]; [by destruct rest|].
  rewrite append_cons. cbn [String.length String.substring]. by rewrite IH.
Qed.

Lemma substring_append_skip s rest n m :
  String.substring (String.length s + n) m (s +:+ rest) =
  String.substring n m rest.
Proof.
  induction s as [|c s IH]; [done|].
  rewrite append_cons. cbn [String.length Nat.add String.substring]. done.
Qed.

Lemma slice_to s (b : nat) :
  b ≤ String.length s →
  slice s 0 (Some (Z.of_nat b)) = String.substring 0 b s.
Proof.
  intros Hb. unfold slice.
  destruct (Z.ltb_spec (Z.of_nat b) 0); [lia|]. cbn [Z.ltb Z.compare].
  replace (Z.to_nat (Z.min 0 (Z.of_nat (String.length s)))) with 0 by lia.
  f_equal. lia.
Qed.

Lemma slice_from s (a : nat) :
  a ≤ String.length s →
  slice s (Z.of_nat a) None =
  String.substring a (String.length s - a) s.
Proof.
  intros Ha. unfold slice.
  destruct (Z.ltb_spec (Z.of_nat a) 0); [lia|].
  f_equal; lia.
Qed.

Lemma prefix_colon b s :
  String.prefix ":" (String b s) = bool_decide (b = colon).
Proof.
  cbn [String.prefix].
  destruct (Ascii.ascii_dec _ b) as [<-|Hb].
  - by destruct s.
  - rewrite bool_decide_false; [done|]. intros ->. by apply Hb.
Qed.

Lemma index_lacks s : lacks colon s → String.index 0 ":" s = None.
Proof.
  induction s as [|b s IH]; [done|]. intros [Hb Hs].
  cbn [String.index]. rewrite prefix_colon, bool_decide_false by done.
  by rewrite IH.
Qed.

Lemma index_append p rest :
  lacks colon p →
  String.index 0 ":" (p +:+ String colon rest) = Some (String.length p).
Proof.
  induction p as [|b p IH].
  - intros _. change (EmptyString +:+ String colon rest)
      with (String colon rest).
    cbn [String.index]. by rewrite prefix_colon, bool_decide_true.
  - intros [Hb Hp]. rewrite append_cons. cbn [String.index String.length].
    rewrite prefix_colon, bool_decide_false by done. by rewrite IH.
Qed.

Lemma lastIndexOf_from_lacks s :
  lacks colon s → lastIndexOf_from s ":" = None.
Proof.
  induction s as [|b s IH]; [done|]. intros [Hb Hs].
  cbn [lastIndexOf_from]. rewrite IH by done.
  by rewrite prefix_colon, bool_decide_false.
Qed.

Lemma lastIndexOf_from_append p rest :
  lacks colon rest →
  lastIndexOf_from (p +:+ String colon rest) ":" = Some (String.length p).
Proof.
  intros Hrest. induction p as [|b p IH].
  - change (EmptyString +:+ String colon rest) with (String colon rest).
    cbn [lastIndexOf_from]. rewrite lastIndexOf_from_lacks by done.
    by rewrite prefix_colon, bool_decide_true.
  - rewrite append_cons. cbn [lastIndexOf_from String.length].
    by rewrite IH.
Qed.

(** Splitting a string at its character number [length p], which is a
    colon. *)
Lemma split_at_colon p rest :
  slice (p +:+ String colon rest) 0 (Some (Z.of_nat (String.length p))) = p
  ∧ slice (p +:+ String colon rest) (Z.of_nat (String.length p) + 1) None
    = rest.
Proof.
  split.
  - rewrite slice_to by (rewrite length_append; lia).
    apply substring_append_l.
  - replace (Z.of_nat (String.length p) + 1)%Z
      with (Z.of_nat (String.length p + 1)) by lia.
    rewrite slice_from by (rewrite length_append; cbn; lia).
    rewrite substring_append_skip, length_append.
    cbn [String.length String.substring].
    replace (String.length p + S (String.length rest)
             - (String.length p + 1)) with (String.length rest) by lia.
    apply substring_all.
Qed.

Lemma indexOf_append platform id :
  lacks colon platform →
  indexOf (platform +:+ ":" +:+ id) ":" = Z.of_nat (String.length platform).
Proof.
  intros Hp. unfold indexOf. change (":" +:+ id) with (String colon id).
  by rewrite index_append.
Qed.

(** X1: a key made of a platform without colon, a colon and an id is
    split back into the platform and the id, whatever the id holds: also
    when the id holds colons or is empty. *)
Theorem parsePlatform_append platform id :
  lacks colon platform →
  parsePlatform (platform +:+ ":" +:+ id) = (platform, id).
Proof.
  intros Hp. unfold parsePlatform. rewrite indexOf_append by done.
  change (":" +:+ id) with (String colon id).
  by destruct (split_at_colon platform id) as [-> ->].
Qed.

(** X2: for a target without colon, [indexOf] is -1: the platform is the
    target without its last character, and the id is the whole target. *)
Theorem parsePlatform_no_colon target :
  lacks colon target →
  parsePlatform target =
  (String.substring 0 (String.length target - 1) target, target).
Proof.
  intros Ht. unfold parsePlatform, indexOf. rewrite index_lacks by done.
  f_equal.
  - unfold slice. cbn [Z.ltb Z.compare].
    replace (Z.to_nat (Z.min 0 (Z.of_nat (String.length target))))
      with 0 by lia.
    f_equal. lia.
  - change (-1 + 1)%Z with (Z.of_nat 0). rewrite slice_from by lia.
    rewrite Nat.sub_0_r. apply substring_all.
Qed.

(** X3: the sandbox-aware variant splits a target that starts with
    [sandbox:] at its last colon, and any other target as the plain
    [parsePlatform] does. *)
Theorem sandbox_parsePlatform :
  (∀ platform id,
     startsWith (platform +:+ ":" +:+ id) "sandbox:" = true →
     lacks colon id →
     Sandbox.parsePlatform (platform +:+ ":" +:+ id) = (platform, id))
  ∧ (∀ target,
       startsWith target "sandbox:" = false →
       Sandbox.parsePlatform target = parsePlatform target).
Proof.
  split.
  - intros platform id Hs Hid. unfold Sandbox.parsePlatform. rewrite Hs.
    unfold lastIndexOf. change (":" +:+ id) with (String colon id).
    rewrite lastIndexOf_from_append by done.
    by destruct (split_at_colon platform id) as [-> ->].
  - intros target Hs. unfold Sandbox.parsePlatform, parsePlatform.
    by rewrite Hs.
Qed.

End ParsePlatform.

(** ** The merged list as a list *)

Section Merge.

Import Permissions.

Implicit Types (s l u stored set unset : list string) (x y : string).

Lemma filter_all {A} (P : A → Prop) `{!∀ a, Decision (P a)} (rows : list A) :
  (∀ a, a ∈ rows → P a) → filter P rows = rows.
Proof.
  induction rows as [|r rows IH]; [done|]. intros Hall.
  rewrite filter_cons_True by (apply Hall; left).
  rewrite IH; [done|]. intros a Ha. apply Hall. by right.
Qed.

Lemma filter_none {A} (P : A → Prop) `{!∀ a, Decision (P a)} (rows : list A) :
  (∀ a, a ∈ rows → ¬ P a) → filter P rows = [].
Proof.
  induction rows as [|r rows IH]; [done|]. intros Hnone.
  rewrite filter_cons_False by (apply Hnone; left).
  apply IH. intros a Ha. apply Hnone. by right.
Qed.

(** [unset.forEach(delete)] keeps, in their order, the names that are not
    in [unset]. *)
Lemma forEach_delete_filter u s :
  JsSet.forEach u JsSet.delete s = filter (λ y, y ∉ u) s.
Proof.
  unfold JsSet.forEach. revert s.
  induction u as [|x u IH]; intros s; simpl.
  - symmetry. apply filter_all. intros y _. apply not_elem_of_nil.
  - rewrite IH. unfold JsSet.delete.
    etrans; [apply (list_filter_filter (λ y, y ∉ u) (λ y, y ≠ x))|].
    apply list_filter_iff. intros y. rewrite not_elem_of_cons. tauto.
Qed.

(** [set.forEach(add)] appends names of [set] that were not there. *)
Lemma forEach_add_app l s :
  ∃ extra,
    JsSet.forEach l JsSet.add s = s ++ extra
    ∧ ∀ y, y ∈ extra → y ∈ l ∧ y ∉ s.
Proof.
  unfold JsSet.forEach. revert s.
  induction l as [|x l IH]; intros s; simpl.
  - exists []. split; [by rewrite app_nil_r|]. by intros y ?%elem_of_nil.
  - destruct (IH (JsSet.add s x)) as (extra & -> & Hextra).
    unfold JsSet.add in *. case_decide as Hx.
    + exists extra. split; [done|]. intros y Hy.
      destruct (Hextra y Hy). split; [by right|done].
    + exists (x :: extra). split; [by rewrite <- (assoc_L (++))|].
      intros y [->|Hy]%elem_of_cons; [split; [by left|done]|].
      destruct (Hextra y Hy) as [? Hn]. split; [by right|].
      intros ?. apply Hn, elem_of_app. by left.
Qed.

Lemma forEach_add_subset l s :
  (∀ y, y ∈ l → y ∈ s) → JsSet.forEach l JsSet.add s = s.
Proof.
  intros Hl. destruct (forEach_add_app l s) as (extra & -> & Hextra).
  destruct extra as [|y extra]; [by rewrite app_nil_r|].
  destruct (Hextra y) as [Hy Hn]; [by left|]. destruct Hn. by apply Hl.
Qed.

Lemma new_NoDup l : NoDup l → JsSet.new l = l.
Proof.
  unfold JsSet.new, JsSet.forEach.
  enough (∀ acc, NoDup (acc ++ l) → foldl JsSet.add acc l = acc ++ l)
    as Hgen by (intros Hl; by apply (Hgen [])).
  induction l as [|x l IH]; intros acc Hnd; simpl.
  - by rewrite app_nil_r.
  - rewrite (cons_middle x acc l), (assoc_L (++)) in Hnd |- *.
    unfold JsSet.add. case_decide as Hx.
    + apply NoDup_app in Hnd as (Hnd & _ & _).
      apply NoDup_app in Hnd as (_ & Hdis & _).
      destruct (Hdis x Hx). by left.
    + by apply IH.
Qed.

(** Merging the same lists into the merged list gives the merged list
    again, in the same order. *)
Lemma merge_merge stored set unset :
  merge (merge stored set unset) set unset = merge stored set unset.
Proof.
  set (m := merge stored set unset).
  assert (NoDup m) as Hnd by apply NoDup_merge.
  assert (∀ x, x ∈ m ↔ (x ∈ stored ∨ x ∈ set) ∧ x ∉ unset) as Hm
    by (intros x; apply elem_of_merge).
  unfold merge at 1. rewrite new_NoDup by done.
  destruct (forEach_add_app set m) as (extra & -> & Hextra).
  rewrite forEach_delete_filter, filter_app.
  rewrite filter_all by (intros x ?%Hm; tauto).
  rewrite filter_none; [by rewrite app_nil_r|].
  intros x [Hx Hn]%Hextra Hu. apply Hn, Hm. tauto.
Qed.

End Merge.

(** ** Repeating and undoing a change *)

Section Repeat.

Import Permissions.

(** X4: running the same [modifyPermission] a second time leaves the list
    stored for the target as the first run left it, in the same order. *)
Theorem modifyPermission_idempotent target set unset st :
  target ≠ EmptyString →
  let st1 := after (modifyPermission target set unset) st in
  result (listPermission target) (after (modifyPermission target set unset) st1)
  = result (listPermission target) st1.
Proof.
  intros Hne st1. subst st1.
  rewrite !listPermission_modifyPermission by done.
  cbn [default from_option]. unfold id. by rewrite merge_merge.
Qed.

Lemma merge_grant_revoke stored names :
  merge (merge stored names []) [] names =
  filter (λ y, y ∉ names) (JsSet.new stored).
Proof.
  change (merge (merge stored names []) [] names)
    with (JsSet.forEach names JsSet.delete
            (JsSet.new (merge stored names []))).
  rewrite new_NoDup by apply NoDup_merge.
  change (merge stored names [])
    with (JsSet.forEach names JsSet.add (JsSet.new stored)).
  destruct (forEach_add_app names (JsSet.new stored))
    as (extra & -> & Hextra).
  rewrite forEach_delete_filter, filter_app.
  rewrite (filter_none _ extra); [by rewrite app_nil_r|].
  intros x [Hx _]%Hextra Hn. by apply Hn.
Qed.

(** X5: granting names and then revoking the same names leaves the
    earlier list without those names, in its order; when the earlier list
    had no duplicates and none of the names, it is that list again. *)
Theorem modifyPermission_grant_then_revoke target names st :
  target ≠ EmptyString →
  let prev := default [] (result (listPermission target) st) in
  let st2 := after (modifyPermission target [] names)
                   (after (modifyPermission target names []) st) in
  result (listPermission target) st2
    = Some (filter (λ y, y ∉ names) (JsSet.new prev))
  ∧ (NoDup prev → (∀ x, x ∈ names → x ∉ prev) →
     result (listPermission target) st2 = Some prev).
Proof.
  intros Hne prev st2. subst st2.
  rewrite !listPermission_modifyPermission by done.
  cbn [default from_option]. unfold id. fold prev.
  rewrite merge_grant_revoke. split; [done|].
  intros Hnd Hdis. rewrite new_NoDup by done. f_equal.
  apply filter_all. intros x Hx Hn. by apply (Hdis x).
Qed.

End Repeat.

(** ** What a change leaves alone *)

Section Frame.

Import Permissions.

(** X6: [modifyPermission] writes one table only: a user target leaves
    the channel and group tables and [disposables] as they were and asks
    nothing of the registry, so that [list()] answers as before; a channel
    target likewise with the user and group tables; a group target leaves
    the user and channel tables; and with an empty target it returns false
    and does nothing. *)
Theorem modifyPermission_frame target set unset st :
  let st' := after (modifyPermission target set unset) st in
  (startsWith target "@" = true →
   table_channel st' = table_channel st
   ∧ table_permissions st' = table_permissions st
   ∧ Host.to_registry (calls st') = Host.to_registry (calls st)
   ∧ Host.list st' = Host.list st ∧ next_handle st' = next_handle st
   ∧ disposables st' = disposables st)
  ∧ (startsWith target "@" = false → startsWith target "#" = true →
     table_user st' = table_user st
     ∧ table_permissions st' = table_permissions st
     ∧ Host.to_registry (calls st') = Host.to_registry (calls st)
     ∧ Host.list st' = Host.list st ∧ next_handle st' = next_handle st
     ∧ disposables st' = disposables st)
  ∧ (startsWith target "@" = false → startsWith target "#" = false →
     table_user st' = table_user st ∧ table_channel st' = table_channel st)
  ∧ (target = EmptyString →
     modifyPermission target set unset st = (returned false, st)).
Proof.
  intros st'. subst st'. split_and!.
  4: by intros ->.
  - intros Hu. unfold modifyPermission, Host.list. rewrite Hu.
    destruct (truthy (Some target)); cbn [negb]; [|done].
    destruct (parsePlatform _) as [p i]. run.
    destruct (head (filter _ (table_user st))); run;
      unfold Host.to_registry; rewrite !List.filter_app; cbn [List.filter];
      by rewrite !app_nil_r.
  - intros Hu Hc. unfold modifyPermission, Host.list. rewrite Hu, Hc.
    destruct (truthy (Some target)); cbn [negb]; [|done].
    destruct (parsePlatform _) as [p i]. run.
    destruct (head (filter _ (table_channel st))); run;
      unfold Host.to_registry; rewrite !List.filter_app; cbn [List.filter];
      by rewrite !app_nil_r.
  - intros Hu Hc.
    destruct (decide (target = EmptyString)) as [->|Hne]; [done|].
    by destruct (modifyPermission_group_spec target set unset st Hne Hu Hc)
      as (? & ? & _).
Qed.

(** X7: a change to one group or channel does not touch the list of any
    other group or channel. *)
Theorem modifyPermission_other target other set unset st :
  let st' := after (modifyPermission target set unset) st in
  (startsWith target "@" = false → startsWith target "#" = false →
   startsWith other "@" = false → startsWith other "#" = false →
   other ≠ target →
   result (listPermission other) st' = result (listPermission other) st)
  ∧ (startsWith target "@" = false → startsWith target "#" = true →
     startsWith other "@" = false → startsWith other "#" = true →
     parsePlatform (slice other 1 None) ≠ parsePlatform (slice target 1 None) →
     result (listPermission other) st' = result (listPermission other) st).
Proof.
  intros st'. subst st'. split.
  - intros Hu Hc Hou Hoc Hne.
    destruct (decide (other = EmptyString)) as [->|Hother]; [done|].
    destruct (decide (target = EmptyString)) as [->|Htarget]; [done|].
    rewrite !(listPermission_group other Hother _ Hou Hoc).
    destruct (modifyPermission_group_spec target set unset st Htarget Hu Hc)
      as (_ & _ & _ & _ & Hothers & _).
    by rewrite Hothers.
  - intros Hu Hc Hou Hoc Hne. unfold listPermission, modifyPermission.
    rewrite Hu, Hc, Hou, Hoc.
    destruct (truthy (Some other)); cbn [negb]; [|done].
    destruct (truthy (Some target)); cbn [negb]; [|done].
    destruct (parsePlatform (slice other 1 None)) as [p' i'].
    destruct (parsePlatform (slice target 1 None)) as [p i]. run.
    destruct (head (filter _ (table_channel st))) as [c|] eqn:Hhead; run.
    + apply head_Some_elem_of, list_elem_of_filter in Hhead as [[<- <-] _].
      rewrite (filter_fmap_other
                 (λ c0, channel_platform c0 = p' ∧ channel_id c0 = i')
                 (λ c0, channel_platform c0 = channel_platform c
                        ∧ channel_id c0 = channel_id c));
        [done|done|]. intros x [<- <-] [? ?]. apply Hne. by f_equal.
    + rewrite fmap_app, filter_app, fmap_cons, fmap_nil.
      rewrite (filter_fmap_other
                 (λ c0, channel_platform c0 = p' ∧ channel_id c0 = i')
                 (λ c0, channel_platform c0 = p ∧ channel_id c0 = i));
        [|done|].
      * rewrite filter_cons_False, filter_nil, app_nil_r; [done|].
        cbn. case_decide; cbn; intros [<- <-]; by apply Hne.
      * intros x [<- <-] [? ?]. apply Hne. by f_equal.
Qed.

End Frame.

(** ** More on the [perm] command *)

Section Command_more.

Import Permissions.

Lemma some_unknown_false set st :
  some_unknown set st = false ↔ ∀ x, x ∈ set → x ∈ Host.list st.
Proof.
  split.
  - intros Hnone x Hx. destruct (decide (x ∈ Host.list st)); [done|].
    rewrite (some_unknown_true set st x) in Hnone; done.
  - intros Hall. apply not_true_is_false. intros Hsome.
    apply existsb_exists in Hsome as (x & Hx & Hb).
    apply list_elem_of_In, Hall in Hx. by rewrite bool_decide_true in Hb.
Qed.

(** X8: with a target and at least one name, [perm] answers with the
    success message exactly when every name given without [~] is a name
    the registry lists, and with the unknown-permission message otherwise;
    the names to remove are not looked up. *)
Theorem perm_success_iff session options perms st :
  is_Some (target_of session options) →
  perms ≠ [] →
  (result (perm session options perms) st = returned (text ".success" None) ↔
   ∀ x, x ∈ perms → startsWith x "~" = false → x ∈ Host.list st)
  ∧ (result (perm session options perms) st
       ≠ returned (text ".success" None) →
     perm session options perms st
     = (returned (text ".unknown-permission" None), st)).
Proof.
  intros [target Htarget] Hperms. unfold result.
  rewrite perm_unfold, deletes_nonempty, Htarget by done.
  rewrite bool_decide_true by done.
  destruct (some_unknown (set_of perms) st) eqn:Hsome; cbn [fst].
  - split; [|done]. split; [done|]. intros Hall.
    assert (some_unknown (set_of perms) st = false) as Hfalse.
    { apply some_unknown_false. intros x [? ?]%elem_of_set_of. by apply Hall. }
    congruence.
  - split; [|done]. split; [|done]. intros _ x Hx Htilde.
    apply (proj1 (some_unknown_false _ _) Hsome), elem_of_set_of. done.
Qed.

(** X9: after [perm] has changed a target, the same options without names
    list what it stored: the merged list.  The options must not ask for a
    deletion, for without names they would delete the group instead. *)
Theorem perm_then_list session options perms st target :
  target_of session options = Some target →
  perms ≠ [] →
  (∀ x, x ∈ perms → startsWith x "~" = false → x ∈ Host.list st) →
  deletes options [] = false →
  result (perm session options [])
         (after (perm session options perms) st)
  = returned
      (text ".permissions"
         (Some (target,
                Some (merge (default [] (result (listPermission target) st))
                            (set_of perms) (unset_of perms))))).
Proof.
  intros Htarget Hperms Hknown Hdel.
  assert (some_unknown (set_of perms) st = false) as Hsome.
  { apply some_unknown_false. intros x [? ?]%elem_of_set_of.
    by apply Hknown. }
  unfold result, after.
  rewrite (perm_unfold session options perms), deletes_nonempty, Htarget
    by done.
  rewrite bool_decide_true, Hsome by done. cbn [snd].
  rewrite perm_unfold, Hdel, Htarget. rewrite bool_decide_false by auto.
  cbn [fst]. do 4 f_equal.
  apply listPermission_modifyPermission.
  by apply (target_of_nonempty session options).
Qed.

Lemma listPermission_is_Some target st :
  target ≠ EmptyString →
  is_Some (result (listPermission target) st) ↔ has_record target st.
Proof.
  intros Ht%truthy_Some. unfold has_record, listPermission. rewrite Ht.
  cbn [negb].
  destruct (startsWith target "@"); [|destruct (startsWith target "#")].
  - destruct (parsePlatform _) as [p i]. run.
    rewrite fmap_is_Some,
      (head_filter_is_Some (λ u, user_platform u = p ∧ user_pid u = i)).
    split; intros (u & ?); exists u; tauto.
  - destruct (parsePlatform _) as [p i]. run.
    rewrite fmap_is_Some,
      (head_filter_is_Some
         (λ c, channel_platform c = p ∧ channel_id c = i)).
    split; intros (c & ?); exists c; tauto.
  - run.
    by rewrite fmap_is_Some,
      (head_filter_is_Some (λ g, group_name g = target)).
Qed.

(** X10: [listPermission] only reads: it makes the one fetch its sigil
    selects and leaves every table, the registry and [disposables] as they
    were; for a non-empty target it returns a list exactly when the target
    has a backing record, and for the empty target it makes no call. *)
Theorem listPermission_reads target st :
  same_data st (after (listPermission target) st)
  ∧ (target ≠ EmptyString →
     calls (after (listPermission target) st) = calls st ++ [fetch_of target]
     ∧ (is_Some (result (listPermission target) st) ↔ has_record target st))
  ∧ (target = EmptyString → listPermission target st = (None, st)).
Proof.
  split_and!.
  - unfold listPermission, same_data. destruct (negb _); [done|].
    destruct (startsWith target "@"); [|destruct (startsWith target "#")];
      try destruct (parsePlatform _); done.
  - intros Hne. split.
    + apply truthy_Some in Hne as Ht.
      unfold listPermission, fetch_of. rewrite Ht. cbn [negb].
      destruct (startsWith target "@"); [|destruct (startsWith target "#")];
        try destruct (parsePlatform _); done.
    + by apply listPermission_is_Some.
  - by intros ->.
Qed.

End Command_more.

(** ** Registrations and the database *)

Section Registrations.

Import Permissions.

Lemma last_defined_snoc name cs c :
  last_defined name (cs ++ [c]) =
  match c with
  | Define n l => if decide (n = name) then Some l else last_defined name cs
  | _ => last_defined name cs
  end.
Proof. unfold last_defined. rewrite foldl_app. by destruct c. Qed.

Lemma last_defined_app name cs cs' :
  last_defined name (cs ++ cs') =
  match last_defined name cs' with
  | Some l => Some l
  | None => last_defined name cs
  end.
Proof.
  induction cs' as [|c cs' IH] using rev_ind; [by rewrite app_nil_r|].
  rewrite (assoc_L (++)), !last_defined_snoc.
  destruct c; try done. by case_decide.
Qed.

Lemma last_defined_disposers name target st :
  last_defined name (disposers_called target st) = None.
Proof.
  unfold disposers_called.
  destruct (disposables st !! target); [done|].
  case_decide; [|done]. by destruct (disposables st !! "toString").
Qed.

Lemma group_of_listPermission target st :
  target ≠ EmptyString →
  startsWith target "@" = false → startsWith target "#" = false →
  result (listPermission target) st = group_permissions <$> group_of target st.
Proof.
  intros Ht%truthy_Some Hu Hc. unfold listPermission.
  by rewrite Ht, Hu, Hc.
Qed.

Lemma group_of_deleteGroup name other st :
  other ≠ name →
  group_of other (after (deleteGroup name) st) = group_of other st.
Proof.
  intros Hne. destruct (deleteGroup_spec name st) as (_ & _ & Ht & _).
  unfold group_of. rewrite Ht. f_equal.
  etrans; [apply (list_filter_filter (λ g, group_name g = other)
                    (λ g, group_name g ≠ name))|].
  apply list_filter_iff. intros g. split; [tauto|]. intros <-. done.
Qed.

(** A step that leaves the groups and the disposers alone and defines
    nothing keeps the two in step. *)
Lemma in_step_same st st' cs :
  table_permissions st' = table_permissions st →
  disposables st' = disposables st →
  calls st' = calls st ++ cs →
  (∀ name, last_defined name cs = None) →
  in_step st → in_step st'.
Proof.
  intros Ht Hd Hcalls Hcs Hst name h. rewrite Hd. intros Hh.
  destruct (Hst name h Hh) as (g & Hg & Hlast). exists g.
  unfold group_of in *. by rewrite Ht, Hcalls, last_defined_app, Hcs.
Qed.

Ltac defines_nothing :=
  eapply in_step_same;
  [done | done | rewrite <- ?(assoc_L (++)); reflexivity | done].

Lemma in_step_initial registered : in_step (initial registered).
Proof. by intros name h ?. Qed.

Lemma in_step_listPermission target st :
  in_step st → in_step (after (listPermission target) st).
Proof.
  unfold listPermission. destruct (negb _); [done|].
  destruct (startsWith target "@"); [|destruct (startsWith target "#")];
    try destruct (parsePlatform _) as [p i];
    defines_nothing.
Qed.

Lemma in_step_modifyPermission target set unset st :
  in_step st → in_step (after (modifyPermission target set unset) st).
Proof.
  intros Hst.
  destruct (decide (target = EmptyString)) as [->|Hne]; [done|].
  apply truthy_Some in Hne as Ht.
  destruct (startsWith target "@") eqn:Hu;
    [|destruct (startsWith target "#") eqn:Hc].
  - revert Hst. unfold modifyPermission. rewrite Ht, Hu. cbn [negb].
    destruct (parsePlatform _) as [p i]. run.
    destruct (head (filter _ (table_user st))); run.
    + defines_nothing.
    + defines_nothing.
  - revert Hst. unfold modifyPermission. rewrite Ht, Hu, Hc. cbn [negb].
    destruct (parsePlatform _) as [p i]. run.
    destruct (head (filter _ (table_channel st))); run.
    + defines_nothing.
    + defines_nothing.
  - destruct (modifyPermission_group_spec target set unset st Hne Hu Hc)
      as (_ & _ & _ & Hread & Hothers & _ & Hthrow & Hret).
    set (st' := after (modifyPermission target set unset) st) in *.
    assert (∀ name, name ≠ target → group_of name st' = group_of name st)
      as Hgroup by (intros name ?; unfold group_of; by rewrite Hothers).
    assert (∀ name,
              last_defined name
                (GetGroup target
                   :: match result (listPermission target) st with
                      | Some _ => []
                      | None => [CreateGroup target]
                      end
                   ++ [SetGroup target
                         (merge (default [] (result (listPermission target) st))
                            set unset)]) = None) as Hwritten
      by (intros name; by destruct (result (listPermission target) st)).
    intros name h Hh.
    destruct (decide (call_throws target st)) as [Hcase|Hcase].
    + destruct (Hthrow Hcase) as (_ & _ & Hd & Hcalls).
      rewrite Hd in Hh.
      assert (name ≠ target) as Hname
        by (intros ->; destruct Hcase; congruence).
      destruct (Hst name h Hh) as (g & Hg & Hlast). exists g.
      by rewrite Hgroup, Hcalls, last_defined_app, Hwritten.
    + destruct (Hret Hcase) as (_ & _ & Hd & Hcalls).
      rewrite Hcalls, (assoc_L (++)), last_defined_snoc.
      destruct (decide (name = target)) as [->|Hname].
      * rewrite decide_True by done.
        unfold group_of. destruct (head _) as [g|]; [|done].
        exists g. split; [done|]. by injection Hread as ->.
      * rewrite decide_False by done.
        rewrite Hd, lookup_insert_ne in Hh by done.
        destruct (Hst name h Hh) as (g & Hg & Hlast). exists g.
        by rewrite Hgroup, !last_defined_app, last_defined_disposers,
          Hwritten.
Qed.

Lemma in_step_deleteGroup name st :
  in_step st → in_step (after (deleteGroup name) st).
Proof.
  intros Hst other h.
  destruct (deleteGroup_spec name st)
    as (_ & _ & _ & _ & _ & Hd & Hcalls & _).
  rewrite Hd, Hcalls. intros [Hne Hh]%lookup_delete_Some.
  destruct (Hst other h Hh) as (g & Hg & Hlast). exists g.
  rewrite group_of_deleteGroup by done.
  rewrite last_defined_app.
  change (RemoveGroup name :: disposers_called name st)
    with ([RemoveGroup name] ++ disposers_called name st).
  by rewrite last_defined_app, last_defined_disposers.
Qed.

(** Without a list, [#updateGroup] reads the list of the record and goes
    on as if it had been given it. *)
Lemma updateGroup_None name st :
  updateGroup name None st =
  match group_of name st with
  | Some g =>
      updateGroup name (Some (group_permissions g))
        (after (Host.get name) st)
  | None => (returned tt, after (Host.get name) st)
  end.
Proof.
  unfold updateGroup, group_of. run.
  by destruct (head (filter _ (table_permissions st))).
Qed.

Lemma in_step_updateGroup name st :
  in_step st → in_step (after (updateGroup name None) st).
Proof.
  intros Hst.
  assert (after (updateGroup name None) st =
          match group_of name st with
          | Some g =>
              after (updateGroup name (Some (group_permissions g)))
                    (after (Host.get name) st)
          | None => after (Host.get name) st
          end) as ->
    by (unfold after at 1; rewrite updateGroup_None;
        by destruct (group_of name st)).
  destruct (group_of name st) as [g|] eqn:Hg.
  2: { revert Hst. defines_nothing. }
  set (st1 := after (Host.get name) st).
  assert (in_step st1) as Hst1
    by (revert Hst; defines_nothing).
  assert (group_of name st1 = Some g) as Hg1 by done.
  destruct (updateGroup_Some_spec name (group_permissions g) st1)
    as (_ & _ & Ht & _ & Hthrow & Hret).
  set (st' := after (updateGroup name (Some (group_permissions g))) st1) in *.
  destruct (decide (call_throws name st1)) as [Hcase|Hcase].
  - destruct (Hthrow Hcase) as (_ & _ & Hd & Hcalls). revert Hst1.
    apply in_step_same with (cs := []); try done.
    by rewrite app_nil_r.
  - destruct (Hret Hcase) as (_ & _ & Hd & Hcalls).
    intros other h Hh. rewrite Hcalls, (assoc_L (++)), last_defined_snoc.
    unfold group_of. rewrite Ht. fold (group_of other st1).
    destruct (decide (other = name)) as [->|Hne].
    + rewrite decide_True by done. by exists g.
    + rewrite decide_False by done.
      rewrite Hd, lookup_insert_ne in Hh by done.
      destruct (Hst1 other h Hh) as (g' & Hg' & Hlast). exists g'.
      by rewrite last_defined_app, last_defined_disposers.
Qed.

Lemma in_step_perm session options perms st :
  in_step st → in_step (after (perm session options perms) st).
Proof.
  intros Hst. unfold after. rewrite perm_unfold.
  repeat match goal with
         | |- context [if ?b then _ else _] => destruct b
         | |- context [match ?o with Some _ => _ | None => _ end] =>
             destruct o
         end; cbn [snd];
    auto using in_step_deleteGroup, in_step_modifyPermission,
      in_step_listPermission.
Qed.

(** X11: the disposers stay in step with the database.  On a freshly
    loaded plugin, and after any number of [perm] invocations and of calls
    to [modifyPermission], [deleteGroup] and [#updateGroup] without a
    list, whether they return or throw, every name the plugin holds a
    disposer for has a record, and the list last passed to the registry's
    [define] under that name is the list of the record.  This is about
    what the plugin asked for; what the registry made of it is not the
    plugin's to say. *)
Theorem in_step_invariant :
  (∀ registered, in_step (initial registered))
  ∧ (∀ session options perms st,
       in_step st → in_step (after (perm session options perms) st))
  ∧ (∀ target set unset st,
       in_step st →
       in_step (after (modifyPermission target set unset) st))
  ∧ (∀ name st, in_step st → in_step (after (deleteGroup name) st))
  ∧ (∀ name st,
       in_step st → in_step (after (updateGroup name None) st)).
Proof.
  split_and!;
    auto using in_step_initial, in_step_perm, in_step_modifyPermission,
      in_step_deleteGroup, in_step_updateGroup.
Qed.

End Registrations.

(** ** How a change ends, and what a deletion finds *)

Section Outcomes.

Import Permissions.

Lemma call_throws_nonempty name st : call_throws name st → name ≠ EmptyString.
Proof.
  intros [_ Hname] ->. revert Hname. rewrite !elem_of_cons, elem_of_nil.
  by intros [|[|[|]]].
Qed.

(** X19: the three ways [modifyPermission] ends.  It returns false exactly
    for the empty target; it throws a [TypeError] exactly when the target
    is one of [__proto__], [__defineGetter__] and [__defineSetter__] and
    the plugin holds no disposer under it; in every other case it returns
    true. *)
Theorem modifyPermission_outcome target set unset st :
  let r := result (modifyPermission target set unset) st in
  (r = returned false ↔ target = EmptyString)
  ∧ (r = thrown TypeError ↔ call_throws target st)
  ∧ (r = returned true ↔ target ≠ EmptyString ∧ ¬ call_throws target st).
Proof.
  intros r. subst r.
  destruct (decide (target = EmptyString)) as [->|Hne].
  { split_and!; split; try done.
    - by intros ?%call_throws_nonempty.
    - by intros [? _]. }
  destruct (modifyPermission_result target set unset st Hne)
    as [Hthrow Hret].
  destruct (decide (call_throws target st)) as [Hcase|Hcase].
  - rewrite (Hthrow Hcase). split_and!; split; try done. by intros [_ ?].
  - rewrite (Hret Hcase). split_and!; split; done.
Qed.

(** X20: a change to a group whose name does not make the lookup throw
    registers the merged list: after the write it calls the disposer held
    under the name, if any, then [define] with the name and the merged
    list, and keeps the disposer [define] returns under the name; the
    disposers of the other names stay. *)
Theorem modifyPermission_registers target set unset st :
  target ≠ EmptyString →
  startsWith target "@" = false → startsWith target "#" = false →
  ¬ call_throws target st →
  let prev := result (listPermission target) st in
  let l : list string := merge (default [] prev) set unset in
  let st' := after (modifyPermission target set unset) st in
  calls st' =
    calls st ++ GetGroup target
      :: match prev with Some _ => [] | None => [CreateGroup target] end
      ++ SetGroup target l :: disposers_called target st
      ++ [Define target l]
  ∧ (∀ h, disposables st !! target = Some h →
          disposers_called target st = [Dispose h])
  ∧ (disposables st !! target = None → target ≠ "toLocaleString" →
     disposers_called target st = [])
  ∧ disposables st' !! target = Some (next_handle st)
  ∧ next_handle st' = S (next_handle st)
  ∧ (∀ other, other ≠ target →
              disposables st' !! other = disposables st !! other)
  ∧ result (listPermission target) st' = Some l.
Proof.
  intros Hne Hu Hc Hcase prev l st'.
  destruct (modifyPermission_group_spec target set unset st Hne Hu Hc)
    as (_ & _ & _ & Hread & _ & _ & _ & Hret).
  destruct (Hret Hcase) as (_ & Hn & Hd & Hcalls).
  fold st' in Hread, Hn, Hd, Hcalls. fold prev in Hcalls. fold l in Hcalls.
  split_and!.
  - rewrite Hcalls, <- (assoc_L (++)). cbn [app].
    by rewrite <- (assoc_L (++)).
  - intros h Hh. unfold disposers_called. by rewrite Hh.
  - intros Hnone Hname. unfold disposers_called.
    by rewrite Hnone, decide_False.
  - by rewrite Hd, lookup_insert_eq.
  - done.
  - intros other Hother. by rewrite Hd, lookup_insert_ne.
  - by rewrite (listPermission_group target Hne st' Hu Hc).
Qed.

(** X14: deleting a group right after a change to it leaves the tables
    and [disposables] as deleting it at once would have.  When the change
    returned, the deletion calls the disposer the change had just been
    given, and one more disposer has been handed out; when the change
    threw, the deletion throws as well, after it has removed the record.
    What the registry lists afterwards is its own affair. *)
Theorem modifyPermission_then_deleteGroup target set unset st :
  target ≠ EmptyString →
  startsWith target "@" = false → startsWith target "#" = false →
  let changed := after (modifyPermission target set unset) st in
  let st1 := after (deleteGroup target) changed in
  let st0 := after (deleteGroup target) st in
  table_user st1 = table_user st0
  ∧ table_channel st1 = table_channel st0
  ∧ table_permissions st1 = table_permissions st0
  ∧ disposables st1 = disposables st0
  ∧ (¬ call_throws target st →
     result (deleteGroup target) changed = returned tt
     ∧ next_handle st1 = S (next_handle st0)
     ∧ calls st1 =
         calls changed ++ [RemoveGroup target; Dispose (next_handle st)])
  ∧ (call_throws target st →
     result (deleteGroup target) changed = thrown TypeError
     ∧ next_handle st1 = next_handle st0
     ∧ calls st1 = calls changed ++ [RemoveGroup target]).
Proof.
  intros Hne Hu Hc changed st1 st0.
  destruct (modifyPermission_group_spec target set unset st Hne Hu Hc)
    as (Hut & Hct & Hlt & _ & _ & Hrest & Hthrow & Hret).
  fold changed in Hut, Hct, Hlt, Hrest, Hthrow, Hret.
  destruct (deleteGroup_spec target changed)
    as (Hu1 & Hc1 & Ht1 & Hn1 & Hl1 & Hd1 & Hcalls1 & Hthrow1 & Hret1).
  fold st1 in Hu1, Hc1, Ht1, Hn1, Hl1, Hd1, Hcalls1.
  destruct (deleteGroup_spec target st)
    as (Hu0 & Hc0 & Ht0 & Hn0 & Hl0 & Hd0 & _).
  fold st0 in Hu0, Hc0, Ht0, Hn0, Hl0, Hd0.
  rewrite Hu1, Hc1, Ht1, Hn1, Hd1, Hcalls1, Hu0, Hc0, Ht0, Hn0, Hd0, Hut,
    Hct, Hrest.
  destruct (decide (call_throws target st)) as [Hcase|Hcase].
  - destruct (Hthrow Hcase) as (_ & Hn & Hd & _).
    assert (call_throws target changed) as Hcase'
      by (unfold call_throws; rewrite Hd; apply Hcase).
    rewrite Hn, Hd, (disposers_called_throws _ _ Hcase').
    split_and!; try done. intros _. by rewrite (Hthrow1 Hcase').
  - destruct (Hret Hcase) as (_ & Hn & Hd & _).
    assert (disposables changed !! target = Some (next_handle st)) as Hheld
      by (by rewrite Hd, lookup_insert_eq).
    rewrite Hn, Hd, delete_insert_eq.
    split_and!; try done. intros _.
    rewrite (Hret1 (call_throws_not_held _ _ _ Hheld)).
    unfold disposers_called. by rewrite Hheld.
Qed.

(** X15: a second [deleteGroup] finds nothing of its own to do: it asks
    the database to remove the records again and leaves the tables and
    [disposables] as the first left them.  It calls no disposer, unless
    the name is [toLocaleString] and a disposer is held under [toString],
    which the inherited method then calls. *)
Theorem deleteGroup_again name st :
  let st1 := after (deleteGroup name) st in
  same_data st1 (after (deleteGroup name) st1)
  ∧ calls (after (deleteGroup name) st1) =
      calls st1 ++ RemoveGroup name
        :: match disposables st1 !! "toString" with
           | Some h => if decide (name = "toLocaleString")
                       then [Dispose h] else []
           | None => []
           end
  ∧ (name ≠ "toLocaleString" →
     calls (after (deleteGroup name) st1) = calls st1 ++ [RemoveGroup name]).
Proof.
  intros st1.
  destruct (deleteGroup_spec name st1)
    as (Hu & Hc & Ht & Hn & Hl & Hd & Hcalls & _).
  destruct (deleteGroup_spec name st) as (_ & _ & Ht1 & _ & _ & Hd1 & _).
  fold st1 in Ht1, Hd1.
  assert (disposables st1 !! name = None) as Hnone
    by (rewrite Hd1; apply lookup_delete_eq).
  unfold same_data. rewrite Hcalls, Hu, Hc, Ht, Hl, Hd, Hn.
  unfold disposers_called. rewrite Hnone. split_and!; try done.
  - rewrite Ht1.
    etrans; [apply (list_filter_filter (λ g, group_name g ≠ name)
                      (λ g, group_name g ≠ name))|].
    apply list_filter_iff. tauto.
  - by apply delete_id.
  - by destruct (disposables st1 !! "toString"); case_decide.
  - intros Hname. by rewrite decide_False.
Qed.

End Outcomes.

(** ** Order of the stored list, and the row a key names *)

Section Rows.

Import Permissions.

(** X16: a change keeps the order of the stored list: when that list has
    no duplicates, the new list is the stored one without the removed
    names, followed by names that were added. *)
Theorem modifyPermission_keeps_order target set unset st :
  target ≠ EmptyString →
  let prev := default [] (result (listPermission target) st) in
  NoDup prev →
  ∃ added,
    result (listPermission target)
           (after (modifyPermission target set unset) st)
    = Some (filter (λ y, y ∉ unset) prev ++ added)
    ∧ ∀ x, x ∈ added → x ∈ set ∧ (x ∉ prev) ∧ (x ∉ unset).
Proof.
  intros Hne prev Hnd.
  rewrite listPermission_modifyPermission by done. fold prev.
  change (merge prev set unset)
    with (JsSet.forEach unset JsSet.delete
            (JsSet.forEach set JsSet.add (JsSet.new prev))).
  rewrite new_NoDup by done.
  destruct (forEach_add_app set prev) as (extra & -> & Hextra).
  rewrite forEach_delete_filter, filter_app.
  eexists. split; [done|].
  intros x [Hx Hin]%list_elem_of_filter.
  destruct (Hextra x Hin). done.
Qed.

Lemma slice_sigil c s : slice (String c s) 1 None = s.
Proof. apply slice_tail. Qed.

Lemma parsePlatform_key platform id :
  lacks colon platform →
  parsePlatform (platform +:+ ":" +:+ id) = (platform, id).
Proof.
  intros Hp. unfold parsePlatform. rewrite indexOf_append by done.
  change (":" +:+ id) with (String colon id).
  by destruct (split_at_colon platform id) as [-> ->].
Qed.

Lemma startsWith_sigil c s :
  startsWith (String c s) (String c EmptyString) = true.
Proof.
  unfold startsWith. cbn [String.prefix].
  destruct (Ascii.ascii_dec c c); [by destruct s|done].
Qed.

(** X17: [perm] with the user option [platform:id], or with the channel
    option [platform:id], and names the registry lists leaves a row under
    that platform and id whose list is the merged one. *)
Theorem perm_writes_row session options perms st platform id :
  lacks colon platform →
  perms ≠ [] →
  (∀ x, x ∈ perms → startsWith x "~" = false → x ∈ Host.list st) →
  let key := platform +:+ ":" +:+ id in
  let st' := after (perm session options perms) st in
  (opt_user options = Some key →
   ∃ u, u ∈ table_user st'
        ∧ user_platform u = platform ∧ user_pid u = id
        ∧ user_permissions u =
            merge (default [] (result (listPermission ("@" +:+ key)) st))
                  (set_of perms) (unset_of perms))
  ∧ (truthy (opt_user options) = false → opt_currentUser options = false →
     opt_channel options = Some key →
     ∃ c, c ∈ table_channel st'
          ∧ channel_platform c = platform ∧ channel_id c = id
          ∧ channel_permissions c =
              merge (default [] (result (listPermission ("#" +:+ key)) st))
                    (set_of perms) (unset_of perms)).
Proof.
  intros Hp Hperms Hknown key st'.
  assert (some_unknown (set_of perms) st = false) as Hsome.
  { apply some_unknown_false. intros x [? ?]%elem_of_set_of.
    by apply Hknown. }
  assert (truthy (Some key) = true) as Hkey.
  { apply truthy_Some. subst key. by destruct platform. }
  assert (∀ target,
            target_of session options = Some target →
            st' = after (modifyPermission target (set_of perms)
                           (unset_of perms)) st) as Hst'.
  { intros target Htarget. subst st'. unfold after at 1.
    rewrite perm_unfold, deletes_nonempty, Htarget by done.
    by rewrite bool_decide_true, Hsome by done. }
  split.
  - intros Huser.
    assert (target_of session options = Some ("@" +:+ key)) as Htarget.
    { unfold target_of. by rewrite Huser, Hkey. }
    pose proof (listPermission_modifyPermission ("@" +:+ key)
                  (set_of perms) (unset_of perms) st) as Hread.
    rewrite <- (Hst' _ Htarget) in Hread. specialize (Hread ltac:(done)).
    revert Hread. unfold listPermission at 1.
    change (negb (truthy (Some ("@" +:+ key)))) with false.
    change ("@" +:+ key) with (String (Ascii.ascii_of_nat 64) key).
    change "@" with (String (Ascii.ascii_of_nat 64) EmptyString).
    rewrite startsWith_sigil, slice_sigil. subst key. rewrite parsePlatform_key by done.
    run. intros Hread.
    destruct (head _) as [u|] eqn:Hhead; [|done].
    apply head_Some_elem_of, list_elem_of_filter in Hhead as [[? ?] ?].
    exists u. split_and!; try done. by injection Hread.
  - intros Hnouser Hnocurrent Hchannel.
    assert (target_of session options = Some ("#" +:+ key)) as Htarget.
    { unfold target_of. by rewrite Hnouser, Hnocurrent, Hchannel, Hkey. }
    pose proof (listPermission_modifyPermission ("#" +:+ key)
                  (set_of perms) (unset_of perms) st) as Hread.
    rewrite <- (Hst' _ Htarget) in Hread. specialize (Hread ltac:(done)).
    revert Hread. unfold listPermission at 1.
    change (negb (truthy (Some ("#" +:+ key)))) with false.
    change (startsWith ("#" +:+ key) "@") with false. cbn iota.
    change ("#" +:+ key) with (String (Ascii.ascii_of_nat 35) key).
    change "#" with (String (Ascii.ascii_of_nat 35) EmptyString).
    rewrite startsWith_sigil, slice_sigil. subst key. rewrite parsePlatform_key by done.
    run. intros Hread.
    destruct (head _) as [c|] eqn:Hhead; [|done].
    apply head_Some_elem_of, list_elem_of_filter in Hhead as [[? ?] ?].
    exists c. split_and!; try done. by injection Hread.
Qed.

End Rows.
(** ** The further statements at concrete invocations *)

Section Instances_more.

Import Permissions.

Ltac lacking := cbn; repeat split; done.

Ltac known :=
  let x := fresh "x" in
  let Hx := fresh "Hx" in
  let Ht := fresh "Ht" in
  intros x Hx Ht;
  repeat (apply elem_of_cons in Hx as [->|Hx]);
  try (vm_compute in Ht; discriminate Ht);
  try (apply (bool_decide_unpack _); by vm_compute);
  by apply elem_of_nil in Hx.

(** The key [discord:123:45]. *)
Lemma parsePlatform_append_witness :
  lacks colon "discord"
  ∧ parsePlatform ("discord" +:+ ":" +:+ "123:45") = ("discord", "123:45").
Proof.
  assert (lacks colon "discord") as H by lacking.
  exact (conj H (parsePlatform_append "discord" "123:45" H)).
Defined.

(** The key [discord], without an id. *)
Lemma parsePlatform_no_colon_witness :
  lacks colon "discord"
  ∧ parsePlatform "discord" = ("discor", "discord").
Proof.
  assert (lacks colon "discord") as H by lacking.
  exact (conj H (parsePlatform_no_colon "discord" H)).
Defined.

(** The sandbox key [sandbox:abc:123] and the plain key [discord:1]. *)
Lemma sandbox_parsePlatform_witness :
  (startsWith ("sandbox:abc" +:+ ":" +:+ "123") "sandbox:" = true
   ∧ lacks colon "123"
   ∧ Sandbox.parsePlatform ("sandbox:abc" +:+ ":" +:+ "123")
     = ("sandbox:abc", "123"))
  ∧ (startsWith "discord:1" "sandbox:" = false
     ∧ Sandbox.parsePlatform "discord:1" = parsePlatform "discord:1").
Proof.
  assert (startsWith ("sandbox:abc" +:+ ":" +:+ "123") "sandbox:" = true)
    as H1 by reflexivity.
  assert (lacks colon "123") as H2 by lacking.
  assert (startsWith "discord:1" "sandbox:" = false) as H3 by reflexivity.
  exact (conj
           (conj H1 (conj H2
              (proj1 sandbox_parsePlatform "sandbox:abc" "123" H1 H2)))
           (conj H3 (proj2 sandbox_parsePlatform "discord:1" H3))).
Defined.

(** [perm -u discord:9 a b ~b], twice. *)
Lemma modifyPermission_idempotent_witness :
  "@discord:9" ≠ EmptyString
  ∧ result (listPermission "@discord:9")
      (after (modifyPermission "@discord:9" ["a"; "b"] ["b"])
         (after (modifyPermission "@discord:9" ["a"; "b"] ["b"]) registry))
    = result (listPermission "@discord:9")
        (after (modifyPermission "@discord:9" ["a"; "b"] ["b"]) registry).
Proof.
  assert ("@discord:9" ≠ EmptyString) as Hne by done.
  exact (conj Hne (modifyPermission_idempotent
                     "@discord:9" ["a"; "b"] ["b"] registry Hne)).
Defined.

(** Granting [b] to the group that holds [a], and revoking it. *)
Lemma modifyPermission_grant_then_revoke_witness :
  "group.g" ≠ EmptyString
  ∧ NoDup (default [] (result (listPermission "group.g") with_group))
  ∧ (∀ x, x ∈ ["b"] →
          x ∉ default [] (result (listPermission "group.g") with_group))
  ∧ result (listPermission "group.g")
      (after (modifyPermission "group.g" [] ["b"])
         (after (modifyPermission "group.g" ["b"] []) with_group))
    = Some (default [] (result (listPermission "group.g") with_group)).
Proof.
  assert ("group.g" ≠ EmptyString) as Hne by done.
  assert (default [] (result (listPermission "group.g") with_group) = ["a"])
    as Hprev by (by vm_compute).
  assert (NoDup (default [] (result (listPermission "group.g") with_group)))
    as Hnd.
  { rewrite Hprev. apply NoDup_singleton. }
  assert (∀ x, x ∈ ["b"] →
            x ∉ default [] (result (listPermission "group.g") with_group))
    as Hdis.
  { rewrite Hprev. intros x ->%list_elem_of_singleton.
    by intros ?%list_elem_of_singleton. }
  exact (conj Hne (conj Hnd (conj Hdis
           (proj2 (modifyPermission_grant_then_revoke
                     "group.g" ["b"] with_group Hne) Hnd Hdis)))).
Defined.

(** A user target leaves the groups and the registry alone. *)
Lemma modifyPermission_frame_witness :
  startsWith "@discord:9" "@" = true
  ∧ table_channel (after (modifyPermission "@discord:9" ["a"] []) with_group)
    = table_channel with_group
  ∧ table_permissions
      (after (modifyPermission "@discord:9" ["a"] []) with_group)
    = table_permissions with_group
  ∧ Host.to_registry
      (calls (after (modifyPermission "@discord:9" ["a"] []) with_group))
    = Host.to_registry (calls with_group)
  ∧ Host.list (after (modifyPermission "@discord:9" ["a"] []) with_group)
    = Host.list with_group
  ∧ next_handle (after (modifyPermission "@discord:9" ["a"] []) with_group)
    = next_handle with_group
  ∧ disposables (after (modifyPermission "@discord:9" ["a"] []) with_group)
    = disposables with_group.
Proof.
  assert (startsWith "@discord:9" "@" = true) as H by reflexivity.
  exact (conj H (proj1 (modifyPermission_frame
                          "@discord:9" ["a"] [] with_group) H)).
Defined.

(** A change to the group [h] does not touch the group [g]. *)
Lemma modifyPermission_other_witness :
  startsWith "group.h" "@" = false ∧ startsWith "group.h" "#" = false
  ∧ startsWith "group.g" "@" = false ∧ startsWith "group.g" "#" = false
  ∧ "group.g" ≠ "group.h"
  ∧ result (listPermission "group.g")
      (after (modifyPermission "group.h" ["b"] []) with_group)
    = result (listPermission "group.g") with_group.
Proof.
  assert (startsWith "group.h" "@" = false) as H1 by reflexivity.
  assert (startsWith "group.h" "#" = false) as H2 by reflexivity.
  assert (startsWith "group.g" "@" = false) as H3 by reflexivity.
  assert (startsWith "group.g" "#" = false) as H4 by reflexivity.
  assert ("group.g" ≠ "group.h") as H5 by done.
  exact (conj H1 (conj H2 (conj H3 (conj H4 (conj H5
           (proj1 (modifyPermission_other
                     "group.h" "group.g" ["b"] [] with_group)
              H1 H2 H3 H4 H5)))))).
Defined.

(** [perm -u discord:9 a ~zz]: [zz] is not registered, and is not asked
    for. *)
Lemma perm_success_iff_witness :
  let session := mkSession "discord:1" "discord:lobby" in
  let options := mkOptions (Some "discord:9") false None false None false in
  is_Some (target_of session options)
  ∧ ["a"; "~zz"] ≠ []
  ∧ (∀ x, x ∈ ["a"; "~zz"] → startsWith x "~" = false → x ∈ Host.list registry)
  ∧ result (perm session options ["a"; "~zz"]) registry
    = returned (text ".success" None).
Proof.
  intros session options.
  assert (is_Some (target_of session options)) as H1 by (by eexists).
  assert (["a"; "~zz"] ≠ []) as H2 by done.
  assert (∀ x, x ∈ ["a"; "~zz"] → startsWith x "~" = false →
            x ∈ Host.list registry) as H3 by known.
  exact (conj H1 (conj H2 (conj H3
           (proj2 (proj1 (perm_success_iff session options ["a"; "~zz"]
                            registry H1 H2)) H3)))).
Defined.

(** [perm -u discord:9 a b ~b] and then [perm -u discord:9]. *)
Lemma perm_then_list_witness :
  let session := mkSession "discord:1" "discord:lobby" in
  let options := mkOptions (Some "discord:9") false None false None false in
  target_of session options = Some "@discord:9"
  ∧ ["a"; "b"; "~b"] ≠ []
  ∧ (∀ x, x ∈ ["a"; "b"; "~b"] → startsWith x "~" = false →
          x ∈ Host.list registry)
  ∧ deletes options [] = false
  ∧ result (perm session options [])
           (after (perm session options ["a"; "b"; "~b"]) registry)
    = returned
        (text ".permissions"
           (Some ("@discord:9",
                  Some (merge (default []
                                 (result (listPermission "@discord:9")
                                         registry))
                              (set_of ["a"; "b"; "~b"])
                              (unset_of ["a"; "b"; "~b"]))))).
Proof.
  intros session options.
  assert (target_of session options = Some "@discord:9") as H1
    by reflexivity.
  assert (["a"; "b"; "~b"] ≠ []) as H2 by done.
  assert (∀ x, x ∈ ["a"; "b"; "~b"] → startsWith x "~" = false →
            x ∈ Host.list registry) as H3 by known.
  assert (deletes options [] = false) as H4 by reflexivity.
  exact (conj H1 (conj H2 (conj H3 (conj H4
           (perm_then_list session options ["a"; "b"; "~b"] registry
              "@discord:9" H1 H2 H3 H4))))).
Defined.

(** Listing the group [g]. *)
Lemma listPermission_reads_witness :
  "group.g" ≠ EmptyString
  ∧ calls (after (listPermission "group.g") with_group)
    = calls with_group ++ [fetch_of "group.g"]
  ∧ (is_Some (result (listPermission "group.g") with_group)
     ↔ has_record "group.g" with_group).
Proof.
  assert ("group.g" ≠ EmptyString) as Hne by done.
  exact (conj Hne (proj1 (proj2 (listPermission_reads "group.g" with_group))
                     Hne)).
Defined.

(** A fresh plugin, and the state after [perm -g g b ~a] on it. *)
Lemma in_step_invariant_witness :
  in_step registry
  ∧ in_step
      (after (perm (mkSession "discord:1" "discord:lobby")
                   (mkOptions None false None false (Some "g") false)
                   ["b"; "~a"])
             registry).
Proof.
  assert (in_step registry) as H
    by exact (proj1 in_step_invariant ["a"; "b"]).
  exact (conj H (proj1 (proj2 in_step_invariant) _ _ _ registry H)).
Defined.

(** Changing the group [g] again and deleting it. *)
Lemma modifyPermission_then_deleteGroup_witness :
  "group.g" ≠ EmptyString
  ∧ startsWith "group.g" "@" = false ∧ startsWith "group.g" "#" = false
  ∧ ¬ call_throws "group.g" with_group
  ∧ table_permissions
      (after (deleteGroup "group.g")
         (after (modifyPermission "group.g" ["b"] []) with_group))
    = table_permissions (after (deleteGroup "group.g") with_group)
  ∧ calls (after (deleteGroup "group.g")
             (after (modifyPermission "group.g" ["b"] []) with_group))
    = calls (after (modifyPermission "group.g" ["b"] []) with_group)
      ++ [RemoveGroup "group.g"; Dispose (next_handle with_group)].
Proof.
  assert ("group.g" ≠ EmptyString) as H1 by done.
  assert (startsWith "group.g" "@" = false) as H2 by reflexivity.
  assert (startsWith "group.g" "#" = false) as H3 by reflexivity.
  assert (¬ call_throws "group.g" with_group) as H4
    by (by intros [? _]).
  destruct (modifyPermission_then_deleteGroup
              "group.g" ["b"] [] with_group H1 H2 H3)
    as (_ & _ & Ht & _ & Hret & _).
  exact (conj H1 (conj H2 (conj H3 (conj H4
           (conj Ht (proj2 (proj2 (Hret H4)))))))).
Defined.

(** Deleting the group [g] twice. *)
Lemma deleteGroup_again_witness :
  "group.g" ≠ "toLocaleString"
  ∧ calls (after (deleteGroup "group.g")
             (after (deleteGroup "group.g") with_group))
    = calls (after (deleteGroup "group.g") with_group)
      ++ [RemoveGroup "group.g"].
Proof.
  assert ("group.g" ≠ "toLocaleString") as H by done.
  exact (conj H (proj2 (proj2 (deleteGroup_again "group.g" with_group)) H)).
Defined.

(** The key [__proto__] on a fresh plugin, and the key [group.g]. *)
Lemma modifyPermission_outcome_witness :
  call_throws "__proto__" registry
  ∧ result (modifyPermission "__proto__" ["a"] []) registry
    = thrown TypeError
  ∧ "group.g" ≠ EmptyString ∧ ¬ call_throws "group.g" registry
  ∧ result (modifyPermission "group.g" ["a"] []) registry = returned true.
Proof.
  assert (call_throws "__proto__" registry) as H1.
  { split; [done|]. apply elem_of_cons. by left. }
  assert ("group.g" ≠ EmptyString) as H2 by done.
  assert (¬ call_throws "group.g" registry) as H3
    by apply (group_key_regular "g").
  exact (conj H1
           (conj (proj2 (proj1 (proj2 (modifyPermission_outcome
                                         "__proto__" ["a"] [] registry))) H1)
              (conj H2 (conj H3
                 (proj2 (proj2 (proj2 (modifyPermission_outcome
                                         "group.g" ["a"] [] registry)))
                    (conj H2 H3)))))).
Defined.

(** [perm -g g b] on the group that holds [a]: the disposer of the first
    registration is called before the second is made. *)
Lemma modifyPermission_registers_witness :
  "group.g" ≠ EmptyString
  ∧ startsWith "group.g" "@" = false ∧ startsWith "group.g" "#" = false
  ∧ ¬ call_throws "group.g" with_group
  ∧ disposables with_group !! "group.g" = Some 0
  ∧ calls (after (modifyPermission "group.g" ["b"] []) with_group)
    = calls with_group
      ++ [GetGroup "group.g"; SetGroup "group.g" ["a"; "b"]; Dispose 0;
          Define "group.g" ["a"; "b"]].
Proof.
  assert ("group.g" ≠ EmptyString) as H1 by done.
  assert (startsWith "group.g" "@" = false) as H2 by reflexivity.
  assert (startsWith "group.g" "#" = false) as H3 by reflexivity.
  assert (¬ call_throws "group.g" with_group) as H4
    by apply (group_key_regular "g").
  assert (disposables with_group !! "group.g" = Some 0) as H5
    by (by vm_compute).
  exact (conj H1 (conj H2 (conj H3 (conj H4 (conj H5
           (proj1 (modifyPermission_registers
                     "group.g" ["b"] [] with_group H1 H2 H3 H4))))))).
Defined.

(** [perm -g g b ~a] on the group that holds [a]. *)
Lemma modifyPermission_keeps_order_witness :
  "group.g" ≠ EmptyString
  ∧ NoDup (default [] (result (listPermission "group.g") with_group))
  ∧ ∃ added,
      result (listPermission "group.g")
             (after (modifyPermission "group.g" ["b"] ["a"]) with_group)
      = Some (filter (λ y, y ∉ ["a"])
                     (default [] (result (listPermission "group.g")
                                         with_group))
              ++ added)
      ∧ ∀ x, x ∈ added →
             x ∈ ["b"]
             ∧ (x ∉ default [] (result (listPermission "group.g") with_group))
             ∧ (x ∉ ["a"]).
Proof.
  assert ("group.g" ≠ EmptyString) as Hne by done.
  assert (default [] (result (listPermission "group.g") with_group) = ["a"])
    as Hprev by (by vm_compute).
  assert (NoDup (default [] (result (listPermission "group.g") with_group)))
    as Hnd.
  { rewrite Hprev. apply NoDup_singleton. }
  exact (conj Hne (conj Hnd
           (modifyPermission_keeps_order
              "group.g" ["b"] ["a"] with_group Hne Hnd))).
Defined.

(** [perm -u discord:9 a]. *)
Lemma perm_writes_row_witness :
  let session := mkSession "discord:1" "discord:lobby" in
  let options := mkOptions (Some "discord:9") false None false None false in
  lacks colon "discord"
  ∧ ["a"] ≠ []
  ∧ (∀ x, x ∈ ["a"] → startsWith x "~" = false → x ∈ Host.list registry)
  ∧ opt_user options = Some ("discord" +:+ ":" +:+ "9")
  ∧ ∃ u, u ∈ table_user (after (perm session options ["a"]) registry)
         ∧ user_platform u = "discord" ∧ user_pid u = "9"
         ∧ user_permissions u =
             merge (default []
                      (result (listPermission
                                 ("@" +:+ ("discord" +:+ ":" +:+ "9")))
                              registry))
                   (set_of ["a"]) (unset_of ["a"]).
Proof.
  intros session options.
  assert (lacks colon "discord") as H1 by lacking.
  assert (["a"] ≠ []) as H2 by done.
  assert (∀ x, x ∈ ["a"] → startsWith x "~" = false →
            x ∈ Host.list registry) as H3 by known.
  assert (opt_user options = Some ("discord" +:+ ":" +:+ "9")) as H4
    by reflexivity.
  exact (conj H1 (conj H2 (conj H3 (conj H4
           (proj1 (perm_writes_row session options ["a"] registry
                     "discord" "9" H1 H2 H3) H4))))).
Defined.

End Instances_more.

(** ** The delete option *)

Section Delete_option.

Import Permissions.

(** X18: the delete option counts only together with a group and no
    names: given names, or no group, [perm] does what it does without the
    option, and deletes nothing. *)
Theorem perm_delete_ignored session options perms st :
  perms ≠ [] ∨ truthy (opt_group options) = false →
  perm session options perms st =
  perm session
       (mkOptions (opt_user options) (opt_currentUser options)
                  (opt_channel options) (opt_currentChannel options)
                  (opt_group options) false)
       perms st.
Proof.
  intros Hcase. rewrite !perm_unfold.
  assert (deletes options perms = false) as ->.
  { destruct Hcase as [Hperms|Hgroup]; [by apply deletes_nonempty|].
    unfold deletes. by rewrite Hgroup, andb_false_r. }
  done.
Qed.

(** [perm -d -g g a] changes the group [g] and keeps it. *)
Lemma perm_delete_ignored_witness :
  let session := mkSession "discord:1" "discord:lobby" in
  (["a"] ≠ [] ∨ truthy (Some "g") = false)
  ∧ perm session (mkOptions None false None false (Some "g") true) ["a"]
         registry
    = perm session (mkOptions None false None false (Some "g") false) ["a"]
           registry.
Proof.
  intros session.
  assert (["a"] ≠ [] ∨ truthy (Some "g") = false) as H by (by left).
  exact (conj H (perm_delete_ignored session
                   (mkOptions None false None false (Some "g") true)
                   ["a"] registry H)).
Defined.

End Delete_option.
